(** * convertobmp: photographs to 7-colour e-paper bitmaps

    A shallow embedding of [convertobmp.py] and the properties of its
    palette, orientation resolver, conversion pipeline and path walker.

    The script is glue around two libraries.  What belongs to the script
    (the palette constant, the choice of the target size, the order of the
    pipeline steps, the exception boundary, the naming of the output file,
    the walk over a directory) is modelled here step by step.  What belongs
    to Pillow (decoding, resampling, quantizing, encoding) is taken as a
    record of operations, [Pillow], with the part of their documented
    behaviour that the properties rely on stated in [PillowSpec].  The file
    system that [pathlib] sees is a finite map from paths to entries. *)

From Stdlib Require Import ZArith List String Ascii Bool Lia Sorted Permutation.
From Stdlib Require Import QArith Qround.
From Stdlib Require OrdersEx.
From stdpp Require Import base gmap strings list sorting.

Local Open Scope string_scope.
Local Open Scope Z_scope.

(* ===================================================================== *)
(** * Strings as Python uses them here *)
(* ===================================================================== *)

Module Str.

(** [str.lower()] on one character.  Only the ASCII letters matter to
    the comparisons of the script: no other character lowers to one of
    the letters of [.jpg], [.jpeg], [.png]. *)
Definition lower_ascii (c : ascii) : ascii :=
  let n := nat_of_ascii c in
  if (65 <=? n)%nat && (n <=? 90)%nat then ascii_of_nat (n + 32) else c.

Fixpoint lower (s : string) : string :=
  match s with
  | EmptyString => EmptyString
  | String c s' => String (lower_ascii c) (lower s')
  end.

(** [s.rfind(c)]: the index of the last occurrence, [None] for -1. *)
Fixpoint rfind (c : ascii) (s : string) : option nat :=
  match s with
  | EmptyString => None
  | String a s' =>
      match rfind c s' with
      | Some i => Some (S i)
      | None => if Ascii.eqb a c then Some 0%nat else None
      end
  end.

(** [s[:i]] and [s[i:]]. *)
Fixpoint take (i : nat) (s : string) : string :=
  match i, s with
  | S i', String a s' => String a (take i' s')
  | _, _ => EmptyString
  end.

Fixpoint drop (i : nat) (s : string) : string :=
  match i, s with
  | S i', String _ s' => drop i' s'
  | _, _ => s
  end.

(** [sep.join(parts)]. *)
Fixpoint join (sep : string) (parts : list string) : string :=
  match parts with
  | [] => EmptyString
  | [p] => p
  | p :: ps => p ++ sep ++ join sep ps
  end.

End Str.

(* ===================================================================== *)
(** * [pathlib] paths *)
(* ===================================================================== *)

(** A path is the list of its components, outermost first, relative to the
    directory the process runs in; [Path('.')] is the empty list. *)
Definition path := list string.

Module Path.

(** [p.name]: the final component, empty when there is none. *)
Definition name (p : path) : string := List.last p "".

(** [p.parent]. *)
Definition parent (p : path) : path := List.removelast p.

(** The test shared by [PurePath.suffix] and [PurePath.stem]:
    [i = name.rfind('.')] with [0 < i < len(name) - 1]. *)
Definition split_at (nm : string) : option nat :=
  match Str.rfind "." nm with
  | Some i =>
      if (0 <? i)%nat && (S i <? String.length nm)%nat then Some i else None
  | None => None
  end.

(** [p.suffix]: [name[i:]], or the empty string. *)
Definition suffix (p : path) : string :=
  match split_at (name p) with
  | Some i => Str.drop i (name p)
  | None => ""
  end.

(** [p.stem]: [name[:i]], or the whole name. *)
Definition stem (p : path) : string :=
  match split_at (name p) with
  | Some i => Str.take i (name p)
  | None => name p
  end.

(** [str(p)], as the f-strings of the script print a path. *)
Definition to_string (p : path) : string :=
  match p with
  | [] => "."
  | _ => Str.join "/" p
  end.

(** [p.suffix.lower() in ('.jpg', '.jpeg', '.png')]. *)
Definition is_image_suffix (p : path) : bool :=
  let s := Str.lower (suffix p) in
  String.eqb s ".jpg" || String.eqb s ".jpeg" || String.eqb s ".png".

End Path.

(* ===================================================================== *)
(** * The palette *)
(* ===================================================================== *)

Definition rgb : Type := Z * Z * Z.

Definition black : rgb := (0, 0, 0).
Definition white : rgb := (255, 255, 255).
Definition yellow : rgb := (255, 255, 0).
Definition red : rgb := (255, 0, 0).
Definition blue : rgb := (0, 0, 255).
Definition green : rgb := (0, 255, 0).

(** [t * n] on a tuple: [n] copies of [t] one after the other. *)
Fixpoint tuple_repeat {A} (t : list A) (n : nat) : list A :=
  match n with
  | O => []
  | S n' => t ++ tuple_repeat t n'
  end.

(** [EPAPER_PALETTE]: the flat tuple of channel values. *)
Definition EPAPER_PALETTE : list Z :=
  [ 0; 0; 0;
    255; 255; 255;
    255; 255; 0;
    255; 0; 0;
    0; 0; 0;
    0; 0; 255;
    0; 255; 0 ] ++ tuple_repeat [0; 0; 0] 249.

(** Entry [i] of a flat palette: the channels at [3i], [3i+1], [3i+2]. *)
Definition palette_entry (pal : list Z) (i : nat) : rgb :=
  (nth (3 * i) pal 0, nth (3 * i + 1) pal 0, nth (3 * i + 2) pal 0).

(** The colours the display can show. *)
Definition palette_colors : list rgb :=
  [black; white; yellow; red; blue; green].

Definition in_palette (c : rgb) : Prop := In c palette_colors.

(* ===================================================================== *)
(** * Orientation resolver *)
(* ===================================================================== *)

(** [v == s] for a value that is a string or [None]. *)
Definition str_is (v : option string) (s : string) : bool :=
  match v with
  | Some d => String.eqb d s
  | None => false
  end.

(** Lines 37-46 of [convert_image]: the target size from the override
    ([None] when [--dir] is absent) and the size of the source. *)
Definition target_size (direction : option string) (width height : Z) : Z * Z :=
  if str_is direction "landscape" then (800, 480)
  else if str_is direction "portrait" then (480, 800)
  else if width >? height then (800, 480)
  else (480, 800).

(* ===================================================================== *)
(** * Images *)
(* ===================================================================== *)

(** An image in mode [RGB]: its size [(width, height)] and the colour at
    column [x], row [y]. *)
Record image := {
  im_size : Z * Z;
  im_pixel : Z -> Z -> rgb
}.

(** An image in mode [P]: one byte per pixel, and the flat palette the
    bytes index. *)
Record pimage := {
  p_size : Z * Z;
  p_index : Z -> Z -> Byte.byte;
  p_palette : list Z
}.

(** [Image.new("P", size)]: all indices 0, no palette of its own yet. *)
Definition Image_new_P (size : Z * Z) : pimage :=
  {| p_size := size; p_index := fun _ _ => Byte.x00; p_palette := [] |}.

(** [im.putpalette(data)]. *)
Definition putpalette (im : pimage) (data : list Z) : pimage :=
  {| p_size := p_size im; p_index := p_index im; p_palette := data |}.

(** [im.convert('RGB')] on a [P] image: every index is replaced by the
    entry of the palette it names. *)
Definition convert_P_RGB (im : pimage) : image :=
  {| im_size := p_size im;
     im_pixel := fun x y =>
       palette_entry (p_palette im) (N.to_nat (Byte.to_N (p_index im x y))) |}.

(** Every pixel inside the image shows a colour of the display. *)
Definition palette_only (im : image) : Prop :=
  forall x y, 0 <= x < fst (im_size im) -> 0 <= y < snd (im_size im) ->
    in_palette (im_pixel im x y).

(* ===================================================================== *)
(** * Exceptions, the file system and the world *)
(* ===================================================================== *)

(** Exceptions, all of them subclasses of Python's [Exception]; each
    carries what [str(e)] prints. *)
Inductive exn :=
| ValueError (msg : string)
| OSError (msg : string)
| PillowError (msg : string).

Definition exn_str (e : exn) : string :=
  match e with
  | ValueError m | OSError m | PillowError m => m
  end.

Definition bytes := list Byte.byte.

Inductive entry :=
| File (writable : bool) (data : bytes)
| Dir (writable : bool).

Inductive event :=
| Open (p : path)                  (* [Image.open(p)] was called *)
| Saved (p : path) (im : image)    (* [im.save(p)] wrote the file *)
| Stdout (line : string)
| Stderr (line : string).

Record world := {
  fs : gmap path entry;
  trace : list event
}.

Definition emit (e : event) (w : world) : world :=
  {| fs := fs w; trace := (trace w ++ [e])%list |}.

Definition is_file (m : gmap path entry) (p : path) : bool :=
  match m !! p with
  | Some (File _ _) => true
  | _ => false
  end.

Definition is_dir (m : gmap path entry) (p : path) : bool :=
  match m !! p with
  | Some (Dir _) => true
  | _ => false
  end.

(** The longest name a directory entry can have, and the length from
    which the kernel refuses a path as a whole, both in bytes. *)
Definition NAME_MAX : nat := 255.
Definition PATH_MAX : nat := 4096.

(** The kernel's walk along a path that names nothing, from directory
    [dir] on. It ends at the first component that is not an entry of
    [dir], with [ENAMETOOLONG] when that name is longer than [NAME_MAX]
    and with [ENOENT] otherwise, or at a file among the directories, with
    [ENOTDIR]. The result tells whether the error is [ENAMETOOLONG]. *)
Fixpoint name_too_long (m : gmap path entry) (dir : path) (rest : list string)
  : bool :=
  match rest with
  | [] => false
  | c :: rest' =>
      match m !! (dir ++ [c])%list with
      | Some (Dir _) => name_too_long m (dir ++ [c])%list rest'
      | Some (File _ _) => false
      | None => (NAME_MAX <? String.length c)%nat
      end
  end.

(** [os.stat(p)] as [Path.is_file] and [Path.is_dir] call it. An entry
    of the file system is found. For a path that names nothing the
    error is [ENOENT] or [ENOTDIR], which the two methods turn into
    [False], unless the path as a whole or the name the walk ends at is
    too long: then it is [ENAMETOOLONG], which they let through. Other
    failures of [stat], such as a directory that may be listed but not
    searched, need permissions this file system does not record. *)
Definition stat_error (m : gmap path entry) (p : path) : option exn :=
  match m !! p with
  | Some _ => None
  | None =>
      if (PATH_MAX <=? String.length (Path.to_string p))%nat
         || name_too_long m [] p
      then
        Some (OSError ("[Errno 36] File name too long: '" ++ Path.to_string p ++ "'"))
      else None
  end.

(* ===================================================================== *)
(** * Computations that may raise *)
(* ===================================================================== *)

Definition M (A : Type) : Type := world -> (exn + A) * world.

Definition ret {A} (a : A) : M A := fun w => (inr a, w).

Definition raise {A} (e : exn) : M A := fun w => (inl e, w).

Definition bind {A B} (c : M A) (k : A -> M B) : M B :=
  fun w =>
    match c w with
    | (inr a, w') => k a w'
    | (inl e, w') => (inl e, w')
    end.

(** [try: c  except Exception as e: h e]. What [c] did to the world before
    it raised stays done. *)
Definition try_except {A} (c : M A) (h : exn -> M A) : M A :=
  fun w =>
    match c w with
    | (inr a, w') => (inr a, w')
    | (inl e, w') => h e w'
    end.

(** A library call that raises or returns, without touching the world. *)
Definition lift {A} (r : exn + A) : M A := fun w => (r, w).

Definition print (line : string) : M unit :=
  fun w => (inr tt, emit (Stdout line) w).

Definition print_stderr (line : string) : M unit :=
  fun w => (inr tt, emit (Stderr line) w).

Declare Scope m_scope.
Delimit Scope m_scope with M.
Notation "x <- c ;; k" := (bind c (fun x => k))
  (at level 100, c at next level, right associativity) : m_scope.
Notation "c ;;; k" := (bind c (fun _ => k))
  (at level 100, right associativity) : m_scope.

(** [for x in l: body x]. *)
Fixpoint for_each {A} (l : list A) (body : A -> M unit) : M unit :=
  match l with
  | [] => ret tt
  | x :: l' => bind (body x) (fun _ => for_each l' body)
  end.

(* ===================================================================== *)
(** * More of [pathlib]: renaming, ordering, globbing *)
(* ===================================================================== *)

Module PathOps.

Fixpoint contains (c : ascii) (s : string) : bool :=
  match s with
  | EmptyString => false
  | String a s' => Ascii.eqb a c || contains c s'
  end.

(** [p.with_name(nm)]: refuses a path without a name and a name that is
    empty, is [.] or holds a separator; otherwise the name replaces the
    final component. *)
Definition with_name (p : path) (nm : string) : exn + path :=
  if String.eqb (Path.name p) "" then
    inl (ValueError ("PosixPath('" ++ Path.to_string p ++ "') has an empty name"))
  else if String.eqb nm "" || contains "/" nm || String.eqb nm "." then
    inl (ValueError ("Invalid name '" ++ nm ++ "'"))
  else inr (Path.parent p ++ [nm])%list.

(** [p <= q] on paths: the component lists compared as Python compares
    lists of strings, the strings by code point. *)
Fixpoint leb (p q : path) : bool :=
  match p, q with
  | [], _ => true
  | _ :: _, [] => false
  | a :: p', b :: q' =>
      match String.compare a b with
      | Lt => true
      | Eq => leb p' q'
      | Gt => false
      end
  end.

Definition le (p q : path) : Prop := leb p q = true.

#[global] Instance le_dec p q : Decision (le p q).
Proof. unfold le. apply _. Defined.

(** [sorted(paths)]. *)
Definition sorted (l : list path) : list path := merge_sort le l.

(** What is left of [p] below [root], when [p] lies at or below it. *)
Fixpoint strip_prefix (root p : path) : option (list string) :=
  match root, p with
  | [], _ => Some p
  | r :: root', c :: p' =>
      if String.eqb r c then strip_prefix root' p' else None
  | _ :: _, [] => None
  end.

(** The walk of [**]: [rest] is reached from [root] when every component
    but the last names a directory. *)
Fixpoint reachable (m : gmap path entry) (root : path) (rest : list string) : bool :=
  match rest with
  | [] => false
  | [_] => true
  | c :: rest' =>
      is_dir m (root ++ [c])%list && reachable m (root ++ [c])%list rest'
  end.

(** The two patterns the script uses. *)
Inductive pattern := Star | StarStarSlashStar.

Definition matches (m : gmap path entry) (root : path) (pat : pattern) (p : path) : bool :=
  match strip_prefix root p with
  | Some rest =>
      match pat with
      | Star => Nat.eqb (List.length rest) 1
      | StarStarSlashStar => reachable m root rest
      end
  | None => false
  end.

(** [root.glob(pat)], in the order the file system lists its entries. *)
Definition glob (m : gmap path entry) (root : path) (pat : pattern) : list path :=
  List.filter (matches m root pat) (map fst (map_to_list m)).

End PathOps.

(* ===================================================================== *)
(** * Pillow *)
(* ===================================================================== *)

Inductive resampling := NEAREST | LANCZOS | BILINEAR | BICUBIC | BOX | HAMMING.

Definition half : Q := 1 # 2.

(** [Image.Dither.NONE] and [Image.Dither.FLOYDSTEINBERG]. *)
Definition Dither_NONE : Z := 0.
Definition Dither_FLOYDSTEINBERG : Z := 3.

(** The operations of Pillow that [convert_image] calls. *)
Record Pillow := {
  (** An image as [Image.open] returns it: identified, of whatever mode. *)
  opened_image : Type;
  (** [Image.open], on the content of the file. *)
  Image_open : bytes -> exn + opened_image;
  (** [img.convert('RGB')]. *)
  Image_convert_RGB : opened_image -> exn + image;
  (** [ImageOps.fit(img, size, method=, centering=)]. *)
  ImageOps_fit : image -> Z * Z -> resampling -> Q * Q -> exn + image;
  (** [ImageOps.pad(img, size=, color=, centering=)]. *)
  ImageOps_pad : image -> Z * Z -> rgb -> Q * Q -> exn + image;
  (** [img.quantize(dither=, palette=)]. *)
  Image_quantize : image -> Z -> pimage -> exn + pimage;
  (** The BMP encoder behind [img.save] for an [RGB] image. *)
  BMP_encode : image -> bytes
}.

(** The rectangle a padded image keeps for the scaled source: [rw] by [rh]
    pixels with its corner at [(ox, oy)]. It lies inside the target,
    spans it along one axis, keeps the proportions of the source up to
    the rounding of one pixel row or column, and sits in the middle. *)
Definition fitted_box (src_size target : Z * Z) (rw rh ox oy : Z) : Prop :=
  let '(w, h) := src_size in
  let '(tw, th) := target in
  0 <= rw <= tw /\ 0 <= rh <= th /\
  (rw = tw \/ rh = th) /\
  Z.abs (rw * h - rh * w) <= Z.max w h /\
  Z.abs (2 * ox - (tw - rw)) <= 1 /\
  Z.abs (2 * oy - (th - rh)) <= 1.

Definition inside_box (rw rh ox oy x y : Z) : Prop :=
  ox <= x < ox + rw /\ oy <= y < oy + rh.

(** [out] is [src] fitted into [target] and padded with [color]. *)
Definition padded (src out : image) (target : Z * Z) (color : rgb) : Prop :=
  exists rw rh ox oy,
    fitted_box (im_size src) target rw rh ox oy /\
    forall x y, 0 <= x < fst target -> 0 <= y < snd target ->
      ~ inside_box rw rh ox oy x y -> im_pixel out x y = color.

(** What the properties below take from Pillow's documentation. *)
Record PillowSpec (pil : Pillow) : Prop := {
  fit_size : forall img size method centering out,
    ImageOps_fit pil img size method centering = inr out ->
    im_size out = size;
  pad_size : forall img size color centering out,
    ImageOps_pad pil img size color centering = inr out ->
    im_size out = size;
  pad_centered : forall img size color out,
    ImageOps_pad pil img size color (half, half) = inr out ->
    padded img out size color;
  quantize_size : forall img dither pal out,
    Image_quantize pil img dither pal = inr out ->
    p_size out = im_size img;
  quantize_palette : forall img dither pal out,
    Image_quantize pil img dither pal = inr out ->
    p_palette out = p_palette pal
}.

(* ===================================================================== *)
(** * [convert_image] and [process_path] *)
(* ===================================================================== *)

Section Script.

Context (pil : Pillow).

(** [Image.open(p)]: the file is looked up and its content identified. *)
Definition open_image (p : path) : M (opened_image pil) :=
  fun w =>
    let w' := emit (Open p) w in
    match fs w !! p with
    | Some (File _ data) => (Image_open pil data, w')
    | Some (Dir _) =>
        (inl (OSError ("[Errno 21] Is a directory: '" ++ Path.to_string p ++ "'")), w')
    | None =>
        (inl (OSError ("[Errno 2] No such file or directory: '"
                         ++ Path.to_string p ++ "'")), w')
    end.

(** Opening [q] for writing, as [save] does first: [None] when the file
    system allows it, the error otherwise. *)
Definition open_for_writing (m : gmap path entry) (q : path) : option exn :=
  let denied :=
    OSError ("[Errno 13] Permission denied: '" ++ Path.to_string q ++ "'") in
  match m !! Path.parent q with
  | Some (Dir parent_writable) =>
      match m !! q with
      | Some (Dir _) =>
          Some (OSError ("[Errno 21] Is a directory: '" ++ Path.to_string q ++ "'"))
      | Some (File true _) => None
      | Some (File false _) => Some denied
      | None => if parent_writable then None else Some denied
      end
  | _ =>
      Some (OSError ("[Errno 2] No such file or directory: '"
                       ++ Path.to_string q ++ "'"))
  end.

(** [im.save(q)] for a name ending in [.bmp]: the destination is opened
    for writing, which creates it or replaces its content, and the
    encoded image is written. An [RGB] image always encodes; what can
    fail is opening the destination. *)
Definition save (im : image) (q : path) : M unit :=
  fun w =>
    match open_for_writing (fs w) q with
    | Some e => (inl e, w)
    | None =>
        (inr tt,
         {| fs := <[q := File true (BMP_encode pil im)]> (fs w);
            trace := (trace w ++ [Saved q im])%list |})
    end.

(** Lines 48-55: the fit strategy chosen by [mode]. *)
Definition resample (img : image) (mode : string) (target : Z * Z) : exn + image :=
  if String.eqb mode "scale" then
    ImageOps_fit pil img target LANCZOS (half, half)
  else if String.eqb mode "cut" then
    ImageOps_pad pil img target white (half, half)
  else inl (ValueError ("Unknown mode: " ++ mode)).

(** [f"{input_path.stem}_{mode}_output.bmp"]. *)
Definition output_name (input_path : path) (mode : string) : string :=
  Path.stem input_path ++ "_" ++ mode ++ "_output.bmp".

(** Lines 31-68: the body of the [try]. *)
Definition convert_image_body
    (input_path : path) (direction : option string) (mode : string)
    (dither_algorithm : Z) : M bool :=
  (opened <- open_image input_path ;;
   img <- lift (Image_convert_RGB pil opened) ;;
   let width := fst (im_size img) in
   let height := snd (im_size img) in
   let target := target_size direction width height in
   output_image <- lift (resample img mode target) ;;
   let pal_image := putpalette (Image_new_P (1, 1)) EPAPER_PALETTE in
   indexed <- lift (Image_quantize pil output_image dither_algorithm pal_image) ;;
   let quantized_image := convert_P_RGB indexed in
   output_filename <-
     lift (PathOps.with_name input_path (output_name input_path mode)) ;;
   save quantized_image output_filename ;;;
   print ("Successfully converted " ++ Path.to_string input_path
            ++ " to " ++ Path.to_string output_filename) ;;;
   ret true)%M.

(** Lines 30-71. *)
Definition convert_image
    (input_path : path) (direction : option string) (mode : string)
    (dither_algorithm : Z) : M bool :=
  try_except
    (convert_image_body input_path direction mode dither_algorithm)
    (fun e =>
       (print_stderr ("Error processing " ++ Path.to_string input_path
                        ++ ": " ++ exn_str e) ;;;
        ret false)%M).

(** [p.is_file()]: raises what [stat] raises and the method does not
    swallow. The call is outside every [try] of the script. *)
Definition path_is_file (p : path) : M bool :=
  fun w =>
    match stat_error (fs w) p with
    | Some e => (inl e, w)
    | None => (inr (is_file (fs w) p), w)
    end.

(** [p.is_dir()], likewise. *)
Definition path_is_dir (p : path) : M bool :=
  fun w =>
    match stat_error (fs w) p with
    | Some e => (inl e, w)
    | None => (inr (is_dir (fs w) p), w)
    end.

(** [sorted(p.glob(pat))]: the listing is read in full, then sorted. *)
Definition sorted_glob (p : path) (pat : PathOps.pattern) : M (list path) :=
  fun w => (inr (PathOps.sorted (PathOps.glob (fs w) p pat)), w).

(** Lines 82-83: the body of the loop over a directory. *)
Definition convert_if_picture
    (q : path) (direction : option string) (mode : string) (dither : Z)
  : M unit :=
  (qf <- path_is_file q ;;
   if qf && Path.is_image_suffix q then
     (convert_image q direction mode dither ;;; ret tt)
   else ret tt)%M.

(** Lines 73-85. *)
Definition process_path
    (p : path) (recursive : bool) (direction : option string)
    (mode : string) (dither : Z) : M unit :=
  (isf <- path_is_file p ;;
   if isf then
     if Path.is_image_suffix p then
       (convert_image p direction mode dither ;;; ret tt)
     else ret tt
   else
     isd <- path_is_dir p ;;
     if isd then
       let pat := if recursive then PathOps.StarStarSlashStar else PathOps.Star in
       found <- sorted_glob p pat ;;
       for_each found (fun q => convert_if_picture q direction mode dither)
     else
       print_stderr ("Error: Path '" ++ Path.to_string p
                       ++ "' does not exist or is not a valid file/directory."))%M.



(** The status the interpreter exits with: 0 when [main] returns, 1 when
    an exception leaves it. *)
Definition exit_status (r : exn + unit) : Z :=
  match r with
  | inr _ => 0
  | inl _ => 1
  end.

End Script.

(* ===================================================================== *)
(** * Vocabulary for the properties *)
(* ===================================================================== *)

(** The events of a run: what [w'] has recorded beyond [w]. *)
Definition since (w w' : world) : list event :=
  drop (List.length (trace w)) (trace w').

(** The paths [Image.open] was called on, in order: one per call of
    [convert_image]. *)
Definition opened_paths (tr : list event) : list path :=
  flat_map (fun e => match e with Open p => [p] | _ => [] end) tr.

(** The images [save] wrote, in order. *)
Definition saved_images (tr : list event) : list image :=
  flat_map (fun e => match e with Saved _ im => [im] | _ => [] end) tr.

(** The lines printed to the error stream, in order. *)
Definition stderr_lines (tr : list event) : list string :=
  flat_map (fun e => match e with Stderr l => [l] | _ => [] end) tr.

(** The lines printed to the output stream, in order. *)
Definition stdout_lines (tr : list event) : list string :=
  flat_map (fun e => match e with Stdout l => [l] | _ => [] end) tr.

Definition success_line (p out : path) : string :=
  "Successfully converted " ++ Path.to_string p ++ " to " ++ Path.to_string out.

Definition error_line (p : path) (e : exn) : string :=
  "Error processing " ++ Path.to_string p ++ ": " ++ exn_str e.

Definition invalid_path_line (p : path) : string :=
  "Error: Path '" ++ Path.to_string p
    ++ "' does not exist or is not a valid file/directory.".

(** The events of one call of [convert_image] on [p]: the file is opened,
    then either the output is saved and announced, or one error line
    names the path and the reason. *)
Inductive report (p : path) : list event -> Prop :=
| report_saved out im :
    report p [Open p; Saved out im; Stdout (success_line p out)]
| report_failed e :
    report p [Open p; Stderr (error_line p e)].

(** [q] lies below the directory [root]: directly in it, or, for a
    recursive walk, at any depth with only directories on the way. *)
Definition below (m : gmap path entry) (root : path) (recursive : bool) (q : path)
  : Prop :=
  exists rest : list string,
    q = (root ++ rest)%list /\ rest ≠ [] /\
    if recursive then
      forall k, (0 < k < List.length rest)%nat ->
        is_dir m (root ++ take k rest)%list = true
    else List.length rest = 1%nat.

(** The pattern [process_path] globs with. *)
Definition pattern_of (recursive : bool) : PathOps.pattern :=
  if recursive then PathOps.StarStarSlashStar else PathOps.Star.

(** The pictures a walk of the directory [root] converts, in the order it
    converts them, as a function of the file system it starts from. *)
Definition candidates (m : gmap path entry) (root : path) (recursive : bool)
  : list path :=
  List.filter (fun q => is_file m q && Path.is_image_suffix q)
    (PathOps.sorted (PathOps.glob m root (pattern_of recursive))).

(** The path [convert_image] writes to, when it gets that far. *)
Definition output_path (p : path) (mode : string) : path :=
  (Path.parent p ++ [output_name p mode])%list.

(** The pictures a run of [process_path] on [p] converts. *)
Definition sources (m : gmap path entry) (p : path) (recursive : bool) : list path :=
  if is_file m p then (if Path.is_image_suffix p then [p] else [])
  else if is_dir m p then candidates m p recursive
  else [].

Section Outcome.

Context (pil : Pillow).

(** Lines 31-33 as a function of the file system: the source image, or
    the exception of [Image.open] or [convert]. *)
Definition load (m : gmap path entry) (p : path) : exn + image :=
  match m !! p with
  | Some (File _ data) =>
      match Image_open pil data with
      | inr opened => Image_convert_RGB pil opened
      | inl e => inl e
      end
  | Some (Dir _) =>
      inl (OSError ("[Errno 21] Is a directory: '" ++ Path.to_string p ++ "'"))
  | None =>
      inl (OSError ("[Errno 2] No such file or directory: '"
                      ++ Path.to_string p ++ "'"))
  end.

(** The target size [convert_image] resolves for a source image. *)
Definition target_of (direction : option string) (img : image) : Z * Z :=
  target_size direction (fst (im_size img)) (snd (im_size img)).

(** The whole [try] body as a function of the file system: the output
    path and the image to save there, or the exception raised. *)
Definition attempt (p : path) (direction : option string) (mode : string)
    (dither : Z) (m : gmap path entry) : exn + (path * image) :=
  match load m p with
  | inl e => inl e
  | inr img =>
      match resample pil img mode (target_of direction img) with
      | inl e => inl e
      | inr resized =>
          match Image_quantize pil resized dither
                  (putpalette (Image_new_P (1, 1)) EPAPER_PALETTE) with
          | inl e => inl e
          | inr indexed =>
              match PathOps.with_name p (output_name p mode) with
              | inl e => inl e
              | inr out =>
                  match open_for_writing m out with
                  | Some e => inl e
                  | None => inr (out, convert_P_RGB indexed)
                  end
              end
          end
      end
  end.

End Outcome.

(* ===================================================================== *)
(** * A small Pillow to run the script on examples *)
(* ===================================================================== *)

Module Tiny.

Definition byteZ (b : Byte.byte) : Z := Z.of_N (Byte.to_N b).

(** A three-byte picture format: width, height, one grey level. *)
Definition open (data : bytes) : exn + image :=
  match data with
  | [w; h; g] =>
      inr {| im_size := (byteZ w, byteZ h);
             im_pixel := fun _ _ => (byteZ g, byteZ g, byteZ g) |}
  | _ => inl (PillowError "cannot identify image file")
  end.

Definition positive_size (size : Z * Z) : bool :=
  (0 <? fst size) && (0 <? snd size).

Definition convert_RGB (im : image) : exn + image :=
  if positive_size (im_size im) then inr im
  else inl (PillowError "image has no pixels").

(** Cover the target, sampling the nearest source pixel. *)
Definition fit (img : image) (size : Z * Z) (_ : resampling) (_ : Q * Q)
  : exn + image :=
  if positive_size (im_size img) && positive_size size then
    inr {| im_size := size;
           im_pixel := fun x y =>
             im_pixel img (x * fst (im_size img) / fst size)
                          (y * snd (im_size img) / snd size) |}
  else inl (ValueError "height and width must be > 0").

(** The size of the source scaled to lie inside [size]. *)
Definition contain_size (src size : Z * Z) : Z * Z :=
  let '(w, h) := src in
  let '(tw, th) := size in
  if h * tw <=? w * th then (tw, (2 * h * tw + w) / (2 * w))
  else ((2 * w * th + h) / (2 * h), th).

Definition pad (img : image) (size : Z * Z) (color : rgb) (centering : Q * Q)
  : exn + image :=
  if positive_size (im_size img) && positive_size size then
    let '(rw, rh) := contain_size (im_size img) size in
    let ox := Qfloor (inject_Z (fst size - rw) * fst centering) in
    let oy := Qfloor (inject_Z (snd size - rh) * snd centering) in
    inr {| im_size := size;
           im_pixel := fun x y =>
             if (ox <=? x) && (x <? ox + rw) && (oy <=? y) && (y <? oy + rh)
             then im_pixel img ((x - ox) * fst (im_size img) / rw)
                               ((y - oy) * snd (im_size img) / rh)
             else color |}
  else inl (ValueError "height and width must be > 0").

Definition dist2 (a b : rgb) : Z :=
  let '(r1, g1, b1) := a in
  let '(r2, g2, b2) := b in
  (r1 - r2) * (r1 - r2) + (g1 - g2) * (g1 - g2) + (b1 - b2) * (b1 - b2).

Definition entry_of (pal : list Z) (b : Byte.byte) : rgb :=
  palette_entry pal (N.to_nat (Byte.to_N b)).

(** The index of the nearest of the first seven entries, the lowest
    index winning a tie; no error is diffused. *)
Definition nearest (pal : list Z) (c : rgb) : Byte.byte :=
  fold_left
    (fun best b =>
       if dist2 (entry_of pal b) c <? dist2 (entry_of pal best) c then b else best)
    [Byte.x01; Byte.x02; Byte.x03; Byte.x04; Byte.x05; Byte.x06] Byte.x00.

Definition quantize (img : image) (_ : Z) (pal : pimage) : exn + pimage :=
  inr {| p_size := im_size img;
         p_index := fun x y => nearest (p_palette pal) (im_pixel img x y);
         p_palette := p_palette pal |}.

(** The two signature bytes of a bitmap file stand for the whole file. *)
Definition encode (_ : image) : bytes := [Byte.x42; Byte.x4d].

Definition pillow : Pillow :=
  {| opened_image := image;
     Image_open := open;
     Image_convert_RGB := convert_RGB;
     ImageOps_fit := fit;
     ImageOps_pad := pad;
     Image_quantize := quantize;
     BMP_encode := encode |}.

(** A directory with two pictures, an output of an earlier run, a text
    file, a broken picture and a subdirectory holding one more picture. *)
Definition album : gmap path entry :=
  list_to_map
    [ ([], Dir true);
      (["photo.jpg"], File true [Byte.x64; Byte.x32; Byte.xc8]);
      (["photo_scale_output.bmp"], File true [Byte.x00]);
      (["b.PNG"], File true [Byte.x28; Byte.x5a; Byte.x10]);
      (["c.txt"], File true [Byte.x68; Byte.x69]);
      (["broken.jpeg"], File true [Byte.x00]);
      (["sub"], Dir true);
      (["sub"; "a.png"], File true [Byte.x32; Byte.x32; Byte.xff]) ].

Definition start : world := {| fs := album; trace := [] |}.

(** A recursive walk of the album with the mode [cut]. *)
Definition walk : (exn + unit) * world :=
  process_path pillow [] true None "cut" Dither_FLOYDSTEINBERG start.

(** A root of 300 letters: longer than any name the file system takes. *)
Definition long_root : path := [string_of_list_ascii (repeat "a"%char 300)].

End Tiny.

(** Two pictures of one stem side by side: their outputs share a name. *)
Module Twins.

Definition album : gmap path entry :=
  list_to_map
    [ ([], Dir true);
      (["a.jpg"], File true [Byte.x0a; Byte.x0a; Byte.x00]);
      (["a.png"], File true [Byte.x14; Byte.x0a; Byte.xff]);
      (["empty"], Dir true);
      (["empty"; "readme.md"], File true [Byte.x68; Byte.x69]) ].

Definition start : world := {| fs := album; trace := [] |}.

End Twins.

(* ===================================================================== *)
(** * Facts about strings and paths *)
(* ===================================================================== *)

Section StringFacts.

Lemma append_cons (x : ascii) (a b : string) :
  (String x a ++ b)%string = String x (a ++ b).
Proof. reflexivity. Qed.

Lemma append_assoc (a b c : string) : ((a ++ b) ++ c = a ++ (b ++ c))%string.
Proof.
  induction a as [| x a IH]; [reflexivity |].
  rewrite !append_cons. now rewrite IH.
Qed.

Lemma length_append (a b : string) :
  String.length (a ++ b) = (String.length a + String.length b)%nat.
Proof.
  induction a as [| x a IH]; [reflexivity |].
  rewrite append_cons. simpl. now rewrite IH.
Qed.

Lemma rfind_append c (a b : string) i :
  Str.rfind c b = Some i ->
  Str.rfind c (a ++ b) = Some (String.length a + i)%nat.
Proof.
  intros Hb. induction a as [| x a IH]; [assumption |].
  rewrite append_cons. simpl. now rewrite IH.
Qed.

Lemma drop_append (a b : string) : Str.drop (String.length a) (a ++ b) = b.
Proof.
  induction a as [| x a IH]; [now destruct b |].
  rewrite append_cons. simpl. assumption.
Qed.

Lemma drop_plus (n k : nat) (s : string) :
  Str.drop (n + k) s = Str.drop k (Str.drop n s).
Proof.
  revert s. induction n as [| n IH]; intros s; simpl.
  - reflexivity.
  - destruct s as [| x s]; simpl; [now destruct k | apply IH].
Qed.

(** A name built as [..._output.bmp] has the suffix [.bmp]. *)
Lemma suffix_output (dir : path) (a : string) :
  Path.suffix (dir ++ [(a ++ "_output.bmp")%string])%list = ".bmp"%string.
Proof.
  unfold Path.suffix, Path.name. rewrite last_last.
  unfold Path.split_at.
  rewrite (rfind_append "." a "_output.bmp" 7) by reflexivity.
  rewrite length_append. simpl String.length.
  replace ((0 <? String.length a + 7)%nat) with true
    by (symmetry; apply Nat.ltb_lt; lia).
  replace ((S (String.length a + 7) <? String.length a + 11)%nat) with true
    by (symmetry; apply Nat.ltb_lt; lia).
  simpl andb. cbv iota.
  rewrite drop_plus, drop_append. reflexivity.
Qed.

End StringFacts.

Section PathOrder.

Lemma compare_refl (a : string) : String.compare a a = Eq.
Proof.
  induction a as [| x a IH]; simpl; [reflexivity |].
  unfold Ascii.compare. now rewrite N.compare_refl.
Qed.

Lemma compare_lt_trans (a b c : string) :
  String.compare a b = Lt -> String.compare b c = Lt -> String.compare a c = Lt.
Proof.
  intros H1 H2.
  exact (StrictOrder_Transitive (R := OrdersEx.String_as_OT.lt) a b c H1 H2).
Qed.

Lemma leb_refl (p : path) : PathOps.leb p p = true.
Proof.
  induction p as [| a p IH]; simpl; [reflexivity |].
  now rewrite compare_refl.
Qed.

Lemma leb_total (p q : path) : PathOps.leb p q = true \/ PathOps.leb q p = true.
Proof.
  revert q. induction p as [| a p IH]; intros [| b q]; simpl; auto.
  rewrite (String.compare_antisym b a).
  destruct (String.compare a b) eqn:E; simpl; auto.
Qed.

Lemma leb_trans (p q r : path) :
  PathOps.leb p q = true -> PathOps.leb q r = true -> PathOps.leb p r = true.
Proof.
  revert q r. induction p as [| a p IH]; intros [| b q] [| c r]; simpl; auto;
    try discriminate.
  destruct (String.compare a b) eqn:Eab; try discriminate;
    destruct (String.compare b c) eqn:Ebc; try discriminate; intros H1 H2.
  - apply String.compare_eq_iff in Eab, Ebc. subst.
    rewrite compare_refl. eauto.
  - apply String.compare_eq_iff in Eab. subst. now rewrite Ebc.
  - apply String.compare_eq_iff in Ebc. subst. now rewrite Eab.
  - now rewrite (compare_lt_trans _ _ _ Eab Ebc).
Qed.

#[global] Instance le_total : Total PathOps.le.
Proof. intros p q. apply leb_total. Qed.

#[global] Instance le_trans : Transitive PathOps.le.
Proof. intros p q r. apply leb_trans. Qed.

(** What [sorted] returns is in order, and holds what it was given. *)
Lemma sorted_ordered (l : list path) : StronglySorted PathOps.le (PathOps.sorted l).
Proof. apply StronglySorted_merge_sort; apply _. Qed.

Lemma sorted_perm (l : list path) : PathOps.sorted l ≡ₚ l.
Proof. apply merge_sort_Permutation. Qed.

End PathOrder.

(* ===================================================================== *)
(** * One conversion *)
(* ===================================================================== *)

Section ConvertFacts.

Context (pil : Pillow).

(** A call of [convert_image] never raises: it returns [True] after
    saving what [attempt] computed, or [False] after reporting the
    exception [attempt] ended with. *)
Lemma convert_image_run p d mode dith w :
  convert_image pil p d mode dith w =
    match attempt pil p d mode dith (fs w) with
    | inr (out, q) =>
        (inr true,
         {| fs := <[out := File true (BMP_encode pil q)]> (fs w);
            trace := trace w ++ [Open p; Saved out q; Stdout (success_line p out)] |})
    | inl e =>
        (inr false,
         {| fs := fs w;
            trace := trace w ++ [Open p; Stderr (error_line p e)] |})
    end.
Proof.
  unfold convert_image, try_except, convert_image_body, bind, open_image,
    attempt, load, lift, save, print, print_stderr, ret, emit,
    success_line, error_line, target_of.
  cbn [fs trace].
  destruct (fs w !! p) as [[wr data | dw] |]; cbn [fs trace];
    try (rewrite <- app_assoc; reflexivity).
  destruct (Image_open pil data) as [e | opened]; cbn [fs trace];
    try (rewrite <- app_assoc; reflexivity).
  destruct (Image_convert_RGB pil opened) as [e | img]; cbn [fs trace];
    try (rewrite <- app_assoc; reflexivity).
  destruct (resample pil img mode _) as [e | resized]; cbn [fs trace];
    try (rewrite <- app_assoc; reflexivity).
  destruct (Image_quantize pil resized dith _) as [e | indexed]; cbn [fs trace];
    try (rewrite <- app_assoc; reflexivity).
  destruct (PathOps.with_name p _) as [e | out]; cbn [fs trace];
    try (rewrite <- app_assoc; reflexivity).
  destruct (open_for_writing _ out) as [e |]; cbn [fs trace];
    try (rewrite <- app_assoc; reflexivity).
  rewrite <- !app_assoc. reflexivity.
Qed.

Lemma since_app (w : world) (m : gmap path entry) (new : list event) :
  since w {| fs := m; trace := trace w ++ new |} = new.
Proof. unfold since. cbn [trace]. apply drop_app_length. Qed.

Lemma since_refl (w : world) : since w w = [].
Proof. unfold since. apply drop_all. Qed.

(** What a successful [attempt] went through. *)
Lemma attempt_inr p d mode dith m out q :
  attempt pil p d mode dith m = inr (out, q) ->
  exists img resized indexed,
    load pil m p = inr img /\
    resample pil img mode (target_of d img) = inr resized /\
    Image_quantize pil resized dith
      (putpalette (Image_new_P (1, 1)) EPAPER_PALETTE) = inr indexed /\
    q = convert_P_RGB indexed /\
    PathOps.with_name p (output_name p mode) = inr out /\
    open_for_writing m out = None.
Proof.
  unfold attempt. intros H.
  destruct (load pil m p) as [e | img]; [discriminate |].
  destruct (resample pil img mode _) as [e | resized] eqn:Er; [discriminate |].
  destruct (Image_quantize pil resized dith _) as [e | indexed] eqn:Eq;
    [discriminate |].
  destruct (PathOps.with_name p _) as [e | out'] eqn:En; [discriminate |].
  destruct (open_for_writing m out') as [e |] eqn:Ew; [discriminate |].
  injection H as <- <-. exists img, resized, indexed. auto 10.
Qed.

Lemma with_name_inr p nm out :
  PathOps.with_name p nm = inr out -> out = (Path.parent p ++ [nm])%list.
Proof.
  unfold PathOps.with_name. intros H.
  destruct (String.eqb (Path.name p) ""); [discriminate |].
  destruct (_ || _ || _); [discriminate |]. now injection H.
Qed.

Lemma resample_inr img mode target resized :
  resample pil img mode target = inr resized ->
  mode = "scale"%string \/ mode = "cut"%string.
Proof.
  unfold resample. intros H.
  destruct (String.eqb mode "scale") eqn:E1; [left; now apply String.eqb_eq |].
  destruct (String.eqb mode "cut") eqn:E2; [right; now apply String.eqb_eq |].
  discriminate.
Qed.

(** The name of an output file is never the name of a picture to convert. *)
Lemma output_not_image (dir : path) (p : path) (mode : string) :
  Path.is_image_suffix (dir ++ [output_name p mode])%list = false.
Proof.
  unfold Path.is_image_suffix, output_name.
  rewrite <- !append_assoc, suffix_output. reflexivity.
Qed.

(** A call of [convert_image] leaves every picture file as it was. *)
Lemma convert_image_keeps_pictures p d mode dith w q :
  Path.is_image_suffix q = true ->
  fs (snd (convert_image pil p d mode dith w)) !! q = fs w !! q.
Proof.
  intros Hq. rewrite convert_image_run.
  destruct (attempt pil p d mode dith (fs w)) as [e | [out im]] eqn:Ea;
    cbn [snd fs]; [reflexivity |].
  apply attempt_inr in Ea as (img & resized & indexed & _ & _ & _ & _ & Hn & _).
  apply with_name_inr in Hn. subst out.
  apply lookup_insert_ne. intros <-.
  rewrite output_not_image in Hq. discriminate.
Qed.

(** The events of a call are one [report]. *)
Lemma convert_image_report p d mode dith w :
  exists b w',
    convert_image pil p d mode dith w = (inr b, w') /\
    report p (since w w') /\
    exists new, trace w' = (trace w ++ new)%list.
Proof.
  rewrite convert_image_run.
  destruct (attempt pil p d mode dith (fs w)) as [e | [out im]];
    eexists _, _; (split; [reflexivity |]); rewrite since_app;
    (split; [constructor | eexists; reflexivity]).
Qed.

(** [stat] finds what the file system holds. *)
Lemma stat_error_found (m : gmap path entry) (q : path) :
  is_Some (m !! q) -> stat_error m q = None.
Proof. unfold stat_error. now intros [en ->]. Qed.

Lemma is_file_found (m : gmap path entry) (q : path) :
  is_file m q = true -> is_Some (m !! q).
Proof. unfold is_file. destruct (m !! q); [eauto | discriminate]. Qed.

Lemma is_dir_found (m : gmap path entry) (q : path) :
  is_dir m q = true -> is_Some (m !! q).
Proof. unfold is_dir. destruct (m !! q); [eauto | discriminate]. Qed.

(** A path [stat] refuses names neither a file nor a directory. *)
Lemma stat_error_nothing (m : gmap path entry) (q : path) (e : exn) :
  stat_error m q = Some e -> is_file m q = false /\ is_dir m q = false.
Proof.
  unfold stat_error, is_file, is_dir.
  destruct (m !! q); [discriminate | auto].
Qed.

(** A call of [convert_image] removes nothing. *)
Lemma convert_image_keeps_found p d mode dith w q :
  is_Some (fs w !! q) ->
  is_Some (fs (snd (convert_image pil p d mode dith w)) !! q).
Proof.
  intros Hq. rewrite convert_image_run.
  destruct (attempt pil p d mode dith (fs w)) as [e | [out im]];
    cbn [snd fs]; [exact Hq |].
  destruct (decide (out = q)) as [-> | Hne].
  - rewrite lookup_insert_eq. eauto.
  - now rewrite lookup_insert_ne.
Qed.

End ConvertFacts.

(* ===================================================================== *)
(** * The small Pillow keeps Pillow's promises *)
(* ===================================================================== *)

Section TinyFacts.

Lemma Qfloor_half (a : Z) : Qfloor (inject_Z a * half) = a / 2.
Proof.
  unfold half, Qmult, inject_Z, Qfloor. cbn [Qnum Qden].
  now rewrite Z.mul_1_r.
Qed.

Lemma positive_size_spec (s : Z * Z) :
  Tiny.positive_size s = true <-> 0 < fst s /\ 0 < snd s.
Proof.
  unfold Tiny.positive_size. rewrite andb_true_iff, !Z.ltb_lt. tauto.
Qed.

(** Rounding a quotient to the nearest integer misses it by at most
    half the divisor. *)
Lemma rounded_quotient (n d : Z) :
  0 < d -> 0 <= n ->
  let r := (2 * n + d) / (2 * d) in
  0 <= r /\ -d < 2 * (d * r - n) <= d.
Proof.
  intros Hd Hn r.
  pose proof (Z.mul_div_le (2 * n + d) (2 * d) ltac:(lia)) as Hlo.
  pose proof (Z.mul_succ_div_gt (2 * n + d) (2 * d) ltac:(lia)) as Hhi.
  fold r in Hlo, Hhi.
  assert (0 <= r) by (apply Z.div_pos; lia).
  lia.
Qed.

Lemma contain_size_fits (w h tw th : Z) :
  0 < w -> 0 < h -> 0 < tw -> 0 < th ->
  let '(rw, rh) := Tiny.contain_size (w, h) (tw, th) in
  0 <= rw <= tw /\ 0 <= rh <= th /\ (rw = tw \/ rh = th) /\
  Z.abs (rw * h - rh * w) <= Z.max w h.
Proof.
  intros Hw Hh Htw Hth. unfold Tiny.contain_size.
  destruct (h * tw <=? w * th) eqn:E.
  - apply Z.leb_le in E.
    destruct (rounded_quotient (h * tw) w Hw ltac:(nia)) as [H0 H1].
    replace (2 * (h * tw) + w) with (2 * h * tw + w) in * by ring.
    set (r := (2 * h * tw + w) / (2 * w)) in *.
    split; [lia |]. split; [nia |]. split; [left; reflexivity | lia].
  - apply Z.leb_gt in E.
    destruct (rounded_quotient (w * th) h Hh ltac:(nia)) as [H0 H1].
    replace (2 * (w * th) + h) with (2 * w * th + h) in * by ring.
    set (r := (2 * w * th + h) / (2 * h)) in *.
    split; [nia |]. split; [lia |]. split; [right; reflexivity | lia].
Qed.

Lemma half_centered (a : Z) : Z.abs (2 * (a / 2) - a) <= 1.
Proof.
  pose proof (Z.mul_div_le a 2 ltac:(lia)).
  pose proof (Z.mul_succ_div_gt a 2 ltac:(lia)). lia.
Qed.

Lemma tiny_pad_centered img size color out :
  Tiny.pad img size color (half, half) = inr out ->
  padded img out size color.
Proof.
  unfold Tiny.pad. intros H.
  destruct (Tiny.positive_size (im_size img) && Tiny.positive_size size) eqn:E;
    [| discriminate].
  apply andb_true_iff in E as [Hs Ht].
  apply positive_size_spec in Hs, Ht.
  destruct (im_size img) as [w h] eqn:Es. destruct size as [tw th].
  cbn [fst snd] in *.
  pose proof (contain_size_fits w h tw th) as Hfit.
  destruct (Tiny.contain_size (w, h) (tw, th)) as [rw rh].
  destruct Hfit as (Hrw & Hrh & Hedge & Hratio); try tauto.
  cbn [fst snd] in H. rewrite !Qfloor_half in H. injection H as <-.
  exists rw, rh, ((tw - rw) / 2), ((th - rh) / 2). split.
  - unfold fitted_box. rewrite Es. repeat split; try lia; auto using half_centered.
  - intros x y Hx Hy Hout. cbn [im_pixel].
    destruct (_ && _ && _ && _) eqn:Ein; [| reflexivity].
    exfalso. apply Hout. unfold inside_box.
    rewrite !andb_true_iff, !Z.leb_le, !Z.ltb_lt in Ein. lia.
Qed.

Lemma tiny_spec : PillowSpec Tiny.pillow.
Proof.
  split; cbn [Tiny.pillow ImageOps_fit ImageOps_pad Image_quantize].
  - unfold Tiny.fit. intros img size method centering out H.
    destruct (_ && _); [| discriminate]. now injection H as <-.
  - unfold Tiny.pad. intros img size color centering out H.
    destruct (_ && _); [| discriminate].
    destruct (Tiny.contain_size _ _). now injection H as <-.
  - apply tiny_pad_centered.
  - unfold Tiny.quantize. intros img dither pal out H. now injection H as <-.
  - unfold Tiny.quantize. intros img dither pal out H. now injection H as <-.
Qed.

End TinyFacts.

(* ===================================================================== *)
(** * The palette and the orientation resolver *)
(* ===================================================================== *)

Lemma entry_in_palette (b : Byte.byte) :
  in_palette (palette_entry EPAPER_PALETTE (N.to_nat (Byte.to_N b))).
Proof. destruct b; vm_compute; tauto. Qed.

(** C8. The palette constant holds 256 RGB entries (768 channel values).
    Its first seven are, in order, black, white, yellow, red, black again,
    blue and green; each of the remaining 249 is black. Being a closed
    constant, it is the same table for every conversion. *)
Theorem palette_table :
  List.length EPAPER_PALETTE = (3 * 256)%nat /\
  map (palette_entry EPAPER_PALETTE) (seq 0 7)
    = [black; white; yellow; red; black; blue; green] /\
  Forall (fun i => palette_entry EPAPER_PALETTE i = black) (seq 7 249).
Proof.
  split; [reflexivity |]. split; [reflexivity |].
  apply List.Forall_forall. intros i Hi. apply in_seq in Hi.
  do 7 (destruct i as [| i]; [lia |]).
  do 249 (destruct i as [| i]; [reflexivity |]).
  lia.
Qed.

(** C2. The target size of [convert_image]: the override [landscape] gives
    800x480 and [portrait] gives 480x800; with any other override, or
    none, a source wider than high gives 800x480 and every other source,
    a square one included, gives 480x800. *)
Theorem target_size_resolution (direction : option string) (w h : Z) :
  (direction = Some "landscape"%string -> target_size direction w h = (800, 480)) /\
  (direction = Some "portrait"%string -> target_size direction w h = (480, 800)) /\
  (direction <> Some "landscape"%string -> direction <> Some "portrait"%string ->
     (w > h -> target_size direction w h = (800, 480)) /\
     (w <= h -> target_size direction w h = (480, 800))).
Proof.
  split; [intros ->; reflexivity |]. split; [intros ->; reflexivity |].
  intros Hl Hp. unfold target_size.
  assert (str_is direction "landscape" = false) as ->.
  { destruct direction as [s |]; [| reflexivity]. cbn.
    apply String.eqb_neq. congruence. }
  assert (str_is direction "portrait" = false) as ->.
  { destruct direction as [s |]; [| reflexivity]. cbn.
    apply String.eqb_neq. congruence. }
  split; intros Hwh.
  - now rewrite (proj2 (Z.gtb_gt w h)) by lia.
  - destruct (w >? h) eqn:E; [apply Z.gtb_gt in E; lia | reflexivity].
Qed.

(* ===================================================================== *)
(** * Properties of [convert_image] *)
(* ===================================================================== *)


(** C7. When a conversion succeeds, the output is written into the
    directory of the input, under the name made of the input's stem, an
    underscore, the mode and [_output.bmp]; the file system changes in
    that one entry only, whatever it held before. *)
Theorem output_written_beside_input
    (pil : Pillow) (p : path) (d : option string) (mode : string) (dith : Z)
    (w w' : world) :
  convert_image pil p d mode dith w = (inr true, w') ->
  let out :=
    (Path.parent p ++ [(Path.stem p ++ "_" ++ mode ++ "_output.bmp")%string])%list in
  exists q,
    fs w' = <[out := File true (BMP_encode pil q)]> (fs w) /\
    since w w' = [Open p; Saved out q; Stdout (success_line p out)].
Proof.
  rewrite convert_image_run. intros H out.
  destruct (attempt pil p d mode dith (fs w)) as [e | [out' q]] eqn:Ea;
    [discriminate |].
  apply attempt_inr in Ea as (img & resized & indexed & _ & _ & _ & _ & Hn & _).
  apply with_name_inr in Hn. fold (output_name p mode) in out.
  subst out'. fold out in H. injection H as <-.
  exists q. cbn [fs]. split; [reflexivity | apply since_app].
Qed.

(** The claim's own example: [photo.jpg] converted with mode [scale]
    yields [photo_scale_output.bmp] beside it, here over an output left by
    an earlier run. *)
Lemma output_written_beside_input_witness :
  let run := convert_image Tiny.pillow ["photo.jpg"%string] None "scale" 3 Tiny.start in
  run = (inr true, snd run) /\
  exists q,
    fs (snd run) =
      <[ ["photo_scale_output.bmp"%string] := File true (Tiny.encode q)]> Tiny.album /\
    since Tiny.start (snd run) =
      [Open ["photo.jpg"%string]; Saved ["photo_scale_output.bmp"%string] q;
       Stdout "Successfully converted photo.jpg to photo_scale_output.bmp"].
Proof.
  split; [reflexivity |].
  apply (output_written_beside_input Tiny.pillow ["photo.jpg"%string] None "scale" 3
           Tiny.start).
  reflexivity.
Defined.

(** C1. Whatever the input and the dithering argument, every pixel of an
    image that [convert_image] saves is black, white, yellow, red, blue or
    green: the quantized image carries the palette it was given, and each
    of the 256 entries of that palette is one of these six colours. *)
Theorem saved_pixels_in_palette
    (pil : Pillow) (spec : PillowSpec pil)
    (p : path) (d : option string) (mode : string) (dith : Z) (w : world) :
  Forall palette_only
    (saved_images (since w (snd (convert_image pil p d mode dith w)))).
Proof.
  rewrite convert_image_run.
  destruct (attempt pil p d mode dith (fs w)) as [e | [out q]] eqn:Ea;
    cbn [snd]; rewrite since_app; cbn; [constructor |].
  constructor; [| constructor].
  apply attempt_inr in Ea as (img & resized & indexed & _ & _ & Hq & -> & _).
  apply (quantize_palette pil spec) in Hq. cbn [putpalette p_palette] in Hq.
  intros x y _ _. cbn [convert_P_RGB im_pixel]. rewrite Hq.
  apply entry_in_palette.
Qed.

Lemma saved_pixels_in_palette_witness :
  let saved :=
    saved_images
      (since Tiny.start
         (snd (convert_image Tiny.pillow ["photo.jpg"%string] None "cut"
                 Dither_FLOYDSTEINBERG Tiny.start))) in
  PillowSpec Tiny.pillow /\ List.length saved = 1%nat /\ Forall palette_only saved.
Proof.
  split; [exact tiny_spec |]. split; [reflexivity |].
  exact (saved_pixels_in_palette Tiny.pillow tiny_spec ["photo.jpg"%string] None "cut"
           Dither_FLOYDSTEINBERG Tiny.start).
Defined.



(** C3, as the code has it. A mode other than [scale] and [cut] makes
    [convert_image] return [False] without writing anything, but only after
    the input was opened and converted to RGB: when that step fails its
    error is the one reported, and otherwise the error reported is the
    invalid-argument error [Unknown mode: <mode>], raised before any
    resizing, quantizing or saving. *)
Theorem unknown_mode_reported_after_loading
    (pil : Pillow) (p : path) (d : option string) (mode : string) (dith : Z)
    (w : world) :
  mode <> "scale"%string -> mode <> "cut"%string ->
  convert_image pil p d mode dith w =
    (inr false,
     {| fs := fs w;
        trace := trace w ++
          [Open p;
           Stderr (error_line p
                     match load pil (fs w) p with
                     | inl e => e
                     | inr _ => ValueError ("Unknown mode: " ++ mode)
                     end)] |}).
Proof.
  intros Hs Hc. rewrite convert_image_run. unfold attempt.
  destruct (load pil (fs w) p) as [e | img]; [reflexivity |].
  unfold resample.
  rewrite (proj2 (String.eqb_neq mode "scale") Hs).
  rewrite (proj2 (String.eqb_neq mode "cut") Hc).
  reflexivity.
Qed.

Lemma unknown_mode_reported_after_loading_witness :
  "zoom"%string <> "scale"%string /\ "zoom"%string <> "cut"%string /\
  convert_image Tiny.pillow ["photo.jpg"%string] None "zoom" 3 Tiny.start =
    (inr false,
     {| fs := Tiny.album;
        trace := [Open ["photo.jpg"%string];
                  Stderr "Error processing photo.jpg: Unknown mode: zoom"] |}).
Proof.
  split; [discriminate |]. split; [discriminate |].
  apply (unknown_mode_reported_after_loading Tiny.pillow ["photo.jpg"%string] None
           "zoom" 3 Tiny.start); discriminate.
Defined.

(** C3, as stated, fails. With the mode [zoom], the picture [photo.jpg] is
    opened before the error is raised; and for a file that does not exist
    the one error reported is that of opening it, not the invalid-argument
    error. *)
Lemma unknown_mode_not_checked_first :
  let run_photo :=
    convert_image Tiny.pillow ["photo.jpg"%string] None "zoom" 3 Tiny.start in
  let run_missing :=
    convert_image Tiny.pillow ["missing.jpg"%string] None "zoom" 3 Tiny.start in
  "zoom"%string <> "scale"%string /\ "zoom"%string <> "cut"%string /\
  since Tiny.start (snd run_photo) =
    [Open ["photo.jpg"%string];
     Stderr "Error processing photo.jpg: Unknown mode: zoom"] /\
  fst run_missing = inr false /\
  stderr_lines (since Tiny.start (snd run_missing)) =
    ["Error processing missing.jpg: [Errno 2] No such file or directory: 'missing.jpg'"%string] /\
  ~ In (Stderr (error_line ["missing.jpg"%string] (ValueError "Unknown mode: zoom")))
       (since Tiny.start (snd run_missing)).
Proof.
  split; [discriminate |]. split; [discriminate |].
  split; [reflexivity |]. split; [reflexivity |]. split; [reflexivity |].
  intros [H | [H | []]]; discriminate H.
Qed.

(* ===================================================================== *)
(** * The walk over a directory *)
(* ===================================================================== *)

Section GlobFacts.

Lemma strip_prefix_Some (root q : path) (rest : list string) :
  PathOps.strip_prefix root q = Some rest <-> q = (root ++ rest)%list.
Proof.
  revert q. induction root as [| r root IH]; intros q; cbn.
  - split; [intros H; now injection H | intros ->; reflexivity].
  - destruct q as [| c q]; [split; intros H; discriminate |].
    destruct (String.eqb r c) eqn:E.
    + apply String.eqb_eq in E. subst c. rewrite IH.
      split; [intros ->; reflexivity | intros H; now injection H].
    + apply String.eqb_neq in E.
      split; [discriminate | intros H; injection H as -> _; congruence].
Qed.

Lemma reachable_spec (m : gmap path entry) (rest : list string) :
  forall root,
    PathOps.reachable m root rest = true <->
    rest ≠ [] /\
    forall k, (0 < k < List.length rest)%nat ->
      is_dir m (root ++ take k rest)%list = true.
Proof.
  induction rest as [| c rest IH]; intros root.
  - cbn. split; [discriminate | intros [H _]; congruence].
  - destruct rest as [| c' rest].
    + cbn. split; [| reflexivity]. intros _. split; [discriminate |].
      intros k Hk. lia.
    + change (PathOps.reachable m root (c :: c' :: rest))
        with (is_dir m (root ++ [c])%list
              && PathOps.reachable m (root ++ [c])%list (c' :: rest)).
      rewrite andb_true_iff, IH. split.
      * intros (Hc & _ & Hrest). split; [discriminate |].
        intros [| k] Hk; [lia |]. cbn [take].
        destruct k as [| k]; [exact Hc |].
        specialize (Hrest (S k) ltac:(cbn in *; lia)).
        now rewrite <- app_assoc in Hrest.
      * intros (_ & H). split; [exact (H 1%nat ltac:(cbn; lia)) |].
        split; [discriminate |]. intros k Hk.
        specialize (H (S k) ltac:(cbn in *; lia)).
        cbn [take] in H. now rewrite <- app_assoc.
Qed.

(** The two patterns select what lies [below] the root. *)
Lemma matches_below (m : gmap path entry) (root : path) (recursive : bool) (q : path) :
  PathOps.matches m root (pattern_of recursive) q = true <->
  below m root recursive q.
Proof.
  unfold PathOps.matches, below. split.
  - destruct (PathOps.strip_prefix root q) as [rest |] eqn:E; [| discriminate].
    apply strip_prefix_Some in E. intros H. exists rest. split; [exact E |].
    destruct recursive; cbn in H.
    + now apply reachable_spec in H.
    + apply Nat.eqb_eq in H. split; [| exact H].
      intros ->. discriminate.
  - intros (rest & Hq & Hne & H).
    rewrite (proj2 (strip_prefix_Some root q rest) Hq).
    destruct recursive; cbn.
    + apply reachable_spec. auto.
    + now apply Nat.eqb_eq.
Qed.

(** The candidates of a walk: in order, without repetition, and exactly
    the picture files below the root. *)
Lemma candidates_sorted m root recursive :
  StronglySorted PathOps.le (candidates m root recursive).
Proof.
  unfold candidates.
  generalize (sorted_ordered (PathOps.glob m root (pattern_of recursive))).
  generalize (PathOps.sorted (PathOps.glob m root (pattern_of recursive))).
  intros l Hl. induction Hl as [| x l Hl IH Hx]; cbn; [constructor |].
  destruct (is_file m x && Path.is_image_suffix x); [| exact IH].
  constructor; [exact IH |].
  apply List.Forall_forall. intros y Hy. apply filter_In in Hy as [Hy _].
  rewrite List.Forall_forall in Hx. auto.
Qed.

Lemma candidates_NoDup m root recursive : List.NoDup (candidates m root recursive).
Proof.
  unfold candidates, PathOps.glob. apply List.NoDup_filter.
  apply NoDup_ListNoDup. rewrite sorted_perm.
  apply NoDup_ListNoDup, List.NoDup_filter, NoDup_ListNoDup.
  apply NoDup_fst_map_to_list.
Qed.

Lemma candidates_spec m root recursive q :
  In q (candidates m root recursive) <->
  is_file m q = true /\ Path.is_image_suffix q = true /\ below m root recursive q.
Proof.
  unfold candidates. rewrite filter_In, andb_true_iff.
  rewrite <- list_elem_of_In, sorted_perm, list_elem_of_In.
  unfold PathOps.glob. rewrite filter_In, matches_below.
  split; [tauto |]. intros (Hf & Hs & Hb). repeat split; auto.
  unfold is_file in Hf. destruct (m !! q) as [en |] eqn:E; [| discriminate].
  apply list_elem_of_In. apply list_elem_of_fmap. exists (q, en).
  split; [reflexivity |]. now apply elem_of_map_to_list.
Qed.

(** What [glob] lists is there. *)
Lemma glob_found (m : gmap path entry) (root : path) (pat : PathOps.pattern) :
  List.Forall (fun q => is_Some (m !! q)) (PathOps.sorted (PathOps.glob m root pat)).
Proof.
  apply List.Forall_forall. intros q Hq.
  apply list_elem_of_In in Hq. rewrite sorted_perm in Hq.
  apply list_elem_of_In in Hq. unfold PathOps.glob in Hq.
  apply filter_In in Hq as [Hq _].
  apply list_elem_of_In, list_elem_of_fmap in Hq as ([q' en] & -> & Hin).
  apply elem_of_map_to_list in Hin. cbn. eauto.
Qed.

End GlobFacts.

Section WalkFacts.

Context (pil : Pillow).



Lemma is_dir_not_file (m : gmap path entry) (p : path) :
  is_dir m p = true -> is_file m p = false.
Proof. unfold is_dir, is_file. now destruct (m !! p) as [[] |]. Qed.


(** [process_path] on a single file. *)
Lemma process_path_file p recursive d mode dith w :
  is_file (fs w) p = true ->
  process_path pil p recursive d mode dith w =
    if Path.is_image_suffix p then
      (inr tt, snd (convert_image pil p d mode dith w))
    else (inr tt, w).
Proof.
  intros Hf. unfold process_path, bind, path_is_file.
  rewrite (stat_error_found _ _ (is_file_found _ _ Hf)), Hf.
  destruct (Path.is_image_suffix p); [| reflexivity].
  destruct (convert_image_report pil p d mode dith w) as (b & w1 & -> & _).
  reflexivity.
Qed.

(** [process_path] on a path that names nothing and that [stat] takes. *)
Lemma process_path_invalid p recursive d mode dith w :
  is_file (fs w) p = false -> is_dir (fs w) p = false ->
  stat_error (fs w) p = None ->
  process_path pil p recursive d mode dith w =
    (inr tt, emit (Stderr (invalid_path_line p)) w).
Proof.
  intros Hf Hd Hst. unfold process_path, bind, path_is_file, path_is_dir.
  rewrite Hst, Hf. cbv beta iota. now rewrite Hst, Hd.
Qed.

(** [process_path] on a path that [stat] refuses: the error of the first
    test leaves the function, and nothing has been done. *)
Lemma process_path_raises p recursive d mode dith w e :
  stat_error (fs w) p = Some e ->
  process_path pil p recursive d mode dith w = (inl e, w).
Proof.
  intros Hst. unfold process_path, bind, path_is_file. now rewrite Hst.
Qed.

End WalkFacts.

(* ===================================================================== *)
(** * Properties of [process_path] *)
(* ===================================================================== *)







(* ===================================================================== *)
(** * The properties on the example album *)
(* ===================================================================== *)

Local Open Scope string_scope.

(** The sizes the specification lists: 1000x500 and 400x900 without an
    override, a square source, and [portrait] forced on a wide source. *)
Lemma target_size_resolution_witness :
  target_size None 1000 500 = (800, 480) /\
  target_size None 400 900 = (480, 800) /\
  target_size None 600 600 = (480, 800) /\
  target_size (Some "portrait") 1000 500 = (480, 800) /\
  target_size (Some "landscape") 400 900 = (800, 480).
Proof.
  split; [| split; [| split; [| split]]].
  - apply (proj2 (proj2 (target_size_resolution None 1000 500)));
      [discriminate | discriminate | lia].
  - apply (proj2 (proj2 (target_size_resolution None 400 900)));
      [discriminate | discriminate | lia].
  - apply (proj2 (proj2 (target_size_resolution None 600 600)));
      [discriminate | discriminate | lia].
  - apply (proj1 (proj2 (target_size_resolution (Some "portrait") 1000 500))).
    reflexivity.
  - apply (proj1 (target_size_resolution (Some "landscape") 400 900)).
    reflexivity.
Defined.

(** The broken picture is reported and the walk goes on to the pictures
    after it. *)
Example album_walk_lines :
  fst Tiny.walk = inr tt /\
  opened_paths (trace (snd Tiny.walk)) =
    [["b.PNG"]; ["broken.jpeg"]; ["photo.jpg"]; ["sub"; "a.png"]] /\
  stderr_lines (trace (snd Tiny.walk)) =
    ["Error processing broken.jpeg: cannot identify image file"] /\
  stdout_lines (trace (snd Tiny.walk)) =
    ["Successfully converted b.PNG to b_cut_output.bmp";
     "Successfully converted photo.jpg to photo_cut_output.bmp";
     "Successfully converted sub/a.png to sub/a_cut_output.bmp"].
Proof. repeat split; reflexivity. Qed.

(** Without the recursive flag the picture in the subdirectory is left
    alone, and so are the text file and the earlier output. *)
Example album_flat_walk :
  opened_paths
    (trace (snd (process_path Tiny.pillow [] false None "scale" 3 Tiny.start))) =
    [["b.PNG"]; ["broken.jpeg"]; ["photo.jpg"]].
Proof. reflexivity. Qed.


(** A root of 300 letters: the first test raises, outside every [try],
    so the run prints nothing and the process ends with status 1. *)
Example over_long_root_aborts :
  let run := process_path Tiny.pillow Tiny.long_root false None "scale" 3 Tiny.start in
  (exists e, fst run = inl e) /\ snd run = Tiny.start /\
  exit_status (fst run) = 1.
Proof. split; [eexists; reflexivity |]. split; reflexivity. Qed.

(** The same name below a directory that does not exist, or below a
    file: the walk ends before it reaches the name, the root is just not
    there, and the run prints the line about an invalid path. *)
Example long_name_not_reached :
  forall above, In above ["missing"; "c.txt"] ->
    let root := above :: Tiny.long_root in
    let run := process_path Tiny.pillow root false None "scale" 3 Tiny.start in
    fst run = inr tt /\
    since Tiny.start (snd run) = [Stderr (invalid_path_line root)].
Proof.
  intros above [<- | [<- | []]]; split; reflexivity.
Qed.



(** A root that names nothing gets the line about an invalid path. *)
Example missing_root_reported :
  process_path Tiny.pillow ["nowhere"] false None "scale" 3 Tiny.start =
    (inr tt,
     {| fs := Tiny.album;
        trace := [Stderr "Error: Path 'nowhere' does not exist or is not a valid file/directory."] |}).
Proof. reflexivity. Qed.

(** Paths are ordered component by component, as Python orders [Path]
    objects: [a/x.png] comes before [a-b/x.png], although the character
    [-] comes before [/]. *)
Example sorted_by_components :
  PathOps.sorted [["a-b"; "x.png"]; ["a"; "x.png"]; ["Z.png"]] =
    [["Z.png"]; ["a"; "x.png"]; ["a-b"; "x.png"]].
Proof. reflexivity. Qed.

(** How [pathlib] splits the names the script meets. *)
Example stem_and_suffix :
  Path.stem ["photo.jpg"] = "photo" /\ Path.suffix ["photo.jpg"] = ".jpg" /\
  Path.suffix ["dir"; "scan.tar.JPEG"] = ".JPEG" /\
  Path.is_image_suffix ["dir"; "scan.tar.JPEG"] = true /\
  Path.suffix [".png"] = "" /\ Path.is_image_suffix [".png"] = false /\
  output_name ["photo.jpg"] "scale" = "photo_scale_output.bmp".
Proof. repeat split; reflexivity. Qed.

(* ===================================================================== *)
(** * Names of inputs and outputs *)
(* ===================================================================== *)

Section NameFacts.

Lemma append_nil_r (a : string) : (a ++ "")%string = a.
Proof.
  induction a as [| x a IH]; [reflexivity |].
  rewrite append_cons. now rewrite IH.
Qed.

Lemma take_drop (i : nat) (s : string) : (Str.take i s ++ Str.drop i s)%string = s.
Proof.
  revert s. induction i as [| i IH]; intros s; [now destruct s |].
  destruct s as [| x s]; [reflexivity |].
  cbn [Str.take Str.drop]. rewrite append_cons. now rewrite IH.
Qed.

(** Where [rfind] points, the character looked for stands. *)
Lemma rfind_drop (c : ascii) (s : string) (i : nat) :
  Str.rfind c s = Some i -> exists t, Str.drop i s = String c t.
Proof.
  revert i. induction s as [| a s IH]; intros i; cbn [Str.rfind]; [discriminate |].
  destruct (Str.rfind c s) as [j |].
  - intros H. injection H as <-. cbn [Str.drop]. now apply IH.
  - destruct (Ascii.eqb a c) eqn:E; [| discriminate].
    intros H. injection H as <-. apply Ascii.eqb_eq in E. subst a.
    now exists s.
Qed.

(** [p.stem + p.suffix == p.name]. *)
Lemma stem_suffix (p : path) : (Path.stem p ++ Path.suffix p)%string = Path.name p.
Proof.
  unfold Path.stem, Path.suffix.
  destruct (Path.split_at (Path.name p)); [apply take_drop | apply append_nil_r].
Qed.

(** A suffix is empty or starts with the dot. *)
Lemma suffix_dot (p : path) :
  Path.suffix p = ""%string \/ exists t, Path.suffix p = String "."%char t.
Proof.
  unfold Path.suffix, Path.split_at.
  destruct (Str.rfind "." (Path.name p)) as [i |] eqn:E; [| now left].
  destruct (_ && _); [| now left].
  right. exact (rfind_drop _ _ _ E).
Qed.

Lemma output_name_assoc (p : path) (mode : string) :
  output_name p mode = (Path.stem p ++ ("_" ++ mode ++ "_output.bmp"))%string.
Proof. reflexivity. Qed.

(** The output of a picture is never the picture itself. *)
Lemma output_differs_from_input (p : path) (mode : string) :
  (Path.parent p ++ [output_name p mode])%list <> p.
Proof.
  intros H. destruct p as [| c p']; [destruct (Path.parent []); discriminate |].
  set (p := c :: p') in *.
  assert (p <> []) as Hne by discriminate.
  rewrite (app_removelast_last "" Hne) in H at 3.
  apply app_inj_tail in H as [_ H].
  fold (Path.name p) in H. rewrite <- (stem_suffix p), output_name_assoc in H.
  apply String.app_inj in H.
  destruct (suffix_dot p) as [E | [t E]]; rewrite E in H; discriminate.
Qed.

End NameFacts.

(* ===================================================================== *)
(** * What a run leaves alone *)
(* ===================================================================== *)

Section FrameFacts.

Context (pil : Pillow).

Lemma open_for_writing_not_dir (m : gmap path entry) (q : path) :
  open_for_writing m q = None -> is_dir m q = false.
Proof.
  unfold open_for_writing, is_dir.
  destruct (m !! Path.parent q) as [[? ? | pw] |]; try discriminate.
  destruct (m !! q) as [[[] ? | ?] |]; try discriminate; reflexivity.
Qed.

(** One call changes at most the entry of its output, and only into a
    file, never where a directory stood. *)
Lemma convert_image_change p d mode dith w q :
  let w' := snd (convert_image pil p d mode dith w) in
  fs w' !! q = fs w !! q \/
  (q = output_path p mode /\ is_dir (fs w) q = false /\
   exists im, fs w' !! q = Some (File true (BMP_encode pil im))).
Proof.
  cbv zeta. rewrite convert_image_run.
  destruct (attempt pil p d mode dith (fs w)) as [e | [out im]] eqn:Ea;
    cbn [snd fs]; [now left |].
  apply attempt_inr in Ea as (img & resized & indexed & _ & _ & _ & _ & Hn & Hw).
  apply with_name_inr in Hn. fold (output_path p mode) in Hn. subst out.
  destruct (decide (output_path p mode = q)) as [<- | Hne].
  - right. split; [reflexivity |].
    split; [now apply open_for_writing_not_dir |].
    exists im. apply lookup_insert_eq.
  - left. now apply lookup_insert_ne.
Qed.

Lemma convert_if_picture_run q d mode dith w :
  is_Some (fs w !! q) ->
  convert_if_picture pil q d mode dith w =
    (inr tt,
     if is_file (fs w) q && Path.is_image_suffix q
     then snd (convert_image pil q d mode dith w) else w).
Proof.
  intros Hq. unfold convert_if_picture, bind, path_is_file.
  rewrite (stat_error_found _ _ Hq).
  destruct (is_file (fs w) q && Path.is_image_suffix q); [| reflexivity].
  destruct (convert_image_report pil q d mode dith w) as (b & w1 & -> & _).
  reflexivity.
Qed.

Lemma for_each_cons x (l : list path) d mode dith w :
  is_Some (fs w !! x) ->
  for_each (x :: l) (fun q => convert_if_picture pil q d mode dith) w =
    for_each l (fun q => convert_if_picture pil q d mode dith)
      (if is_file (fs w) x && Path.is_image_suffix x
       then snd (convert_image pil x d mode dith w) else w).
Proof.
  intros Hx. cbn [for_each]. unfold bind at 1.
  now rewrite convert_if_picture_run.
Qed.

(** The entries the loop is to visit are still there after a conversion. *)
Lemma found_after_convert x (l : list path) d mode dith w :
  List.Forall (fun q => is_Some (fs w !! q)) l ->
  List.Forall
    (fun q => is_Some (fs (snd (convert_image pil x d mode dith w)) !! q)) l.
Proof.
  apply List.Forall_impl. intros q. apply convert_image_keeps_found.
Qed.

(** The loop changes at most the outputs of the pictures it converts. *)
Lemma walk_change d mode dith (l : list path) :
  forall w q,
    List.Forall (fun r => is_Some (fs w !! r)) l ->
    let w' := snd (for_each l (fun x => convert_if_picture pil x d mode dith) w) in
    fs w' !! q = fs w !! q \/
    (exists src,
        In src l /\ is_file (fs w) src = true /\ Path.is_image_suffix src = true /\
        q = output_path src mode /\ is_dir (fs w) q = false /\ is_file (fs w') q = true).
Proof.
  induction l as [| x l IH]; intros w q Hfound; cbv zeta; [now left |].
  apply List.Forall_cons_iff in Hfound as [Hx Hl].
  rewrite for_each_cons by exact Hx.
  destruct (is_file (fs w) x && Path.is_image_suffix x) eqn:Ex.
  - apply andb_true_iff in Ex as [Hxf Hxs].
    pose proof (found_after_convert x l d mode dith w Hl) as Hl1.
    set (w1 := snd (convert_image pil x d mode dith w)) in *.
    assert (forall r, Path.is_image_suffix r = true -> fs w1 !! r = fs w !! r)
      as Hkeep by (intros r Hr; now apply convert_image_keeps_pictures).
    assert (forall r, is_dir (fs w1) r = is_dir (fs w) r) as Hdir.
    { intros r. destruct (convert_image_change x d mode dith w r)
        as [E | (_ & Hd & im & E)]; fold w1 in E; unfold is_dir in *.
      - now rewrite E.
      - rewrite E. now rewrite Hd. }
    destruct (IH w1 q Hl1) as [E | (src & Hin & Hf & Hs & Hq & Hd & Hf')].
    + destruct (convert_image_change x d mode dith w q)
        as [E1 | (Hq & Hd & im & E1)]; fold w1 in E1.
      * left. congruence.
      * right. exists x. repeat split; auto using in_eq.
        unfold is_file. now rewrite E, E1.
    + right. exists src. split; [now apply in_cons |].
      split; [unfold is_file in *; now rewrite <- Hkeep |].
      split; [exact Hs |]. split; [exact Hq |].
      split; [now rewrite <- Hdir | exact Hf'].
  - destruct (IH w q Hl) as [E | (src & Hin & H)]; [now left |].
    right. exists src. split; [now apply in_cons | exact H].
Qed.

Lemma process_path_dir_eq p recursive d mode dith w :
  is_dir (fs w) p = true ->
  process_path pil p recursive d mode dith w =
    for_each (PathOps.sorted (PathOps.glob (fs w) p (pattern_of recursive)))
      (fun q => convert_if_picture pil q d mode dith) w.
Proof.
  intros Hd. unfold process_path, bind, path_is_file, path_is_dir, sorted_glob.
  rewrite (stat_error_found _ _ (is_dir_found _ _ Hd)).
  rewrite (is_dir_not_file _ _ Hd). cbv beta iota.
  now rewrite (stat_error_found _ _ (is_dir_found _ _ Hd)), Hd.
Qed.

(** A run changes at most the outputs of the pictures it converts. *)
Lemma process_path_change p recursive d mode dith w q :
  let w' := snd (process_path pil p recursive d mode dith w) in
  fs w' !! q = fs w !! q \/
  (exists src,
      In src (sources (fs w) p recursive) /\ q = output_path src mode /\
      is_dir (fs w) q = false /\ is_file (fs w') q = true).
Proof.
  cbv zeta. unfold sources. destruct (is_file (fs w) p) eqn:Hf.
  - rewrite process_path_file by exact Hf.
    destruct (Path.is_image_suffix p); cbn [snd]; [| now left].
    destruct (convert_image_change p d mode dith w q)
      as [E | (Hq & Hd & im & E)]; [now left |].
    right. exists p. repeat split; auto using in_eq.
    unfold is_file. now rewrite E.
  - destruct (is_dir (fs w) p) eqn:Hd.
    + rewrite process_path_dir_eq by exact Hd.
      destruct (walk_change d mode dith
                  (PathOps.sorted (PathOps.glob (fs w) p (pattern_of recursive))) w q
                  (glob_found _ _ _))
        as [E | (src & Hin & Hsf & Hss & Hq & Hqd & Hqf)]; [now left |].
      right. exists src. repeat split; auto.
      unfold candidates. apply filter_In. split; [exact Hin |].
      now rewrite Hsf, Hss.
    + destruct (stat_error (fs w) p) as [e |] eqn:Hst.
      * rewrite (process_path_raises pil p recursive d mode dith w e Hst).
        now left.
      * rewrite process_path_invalid by assumption. now left.
Qed.

End FrameFacts.

Section OrderFacts.

Lemma leb_antisym (p q : path) :
  PathOps.leb p q = true -> PathOps.leb q p = true -> p = q.
Proof.
  revert q. induction p as [| a p IH]; intros [| b q]; cbn; try discriminate;
    [reflexivity |].
  rewrite (String.compare_antisym b a).
  destruct (String.compare a b) eqn:E; cbn; try discriminate.
  apply String.compare_eq_iff in E. subst b. intros H1 H2. f_equal. now apply IH.
Qed.

#[global] Instance le_antisym : AntiSymm (=) PathOps.le.
Proof. intros p q. apply leb_antisym. Qed.

(** Two sorted lists without repetition that hold the same paths are the
    same list. *)
Lemma sorted_lists_equal (l k : list path) :
  StronglySorted PathOps.le l -> StronglySorted PathOps.le k ->
  List.NoDup l -> List.NoDup k -> (forall q, In q l <-> In q k) -> l = k.
Proof.
  intros Hl Hk Dl Dk Hin. apply (StronglySorted_unique PathOps.le); auto.
  apply NoDup_Permutation; [now apply NoDup_ListNoDup .. |].
  intros q. rewrite !list_elem_of_In. apply Hin.
Qed.

(** [below] looks at the file system only to ask which paths are
    directories. *)
Lemma below_ext (m m' : gmap path entry) root recursive q :
  (forall r, is_dir m' r = is_dir m r) ->
  below m' root recursive q <-> below m root recursive q.
Proof.
  intros Hd. unfold below.
  split; intros (rest & Hq & Hne & H); exists rest; (split; [exact Hq |]);
    (split; [exact Hne |]); destruct recursive; auto;
    intros k Hk; specialize (H k Hk); now rewrite Hd in *.
Qed.

(** The candidates of a walk depend on the file system through the
    picture files and the directories only. *)
Lemma candidates_ext (m m' : gmap path entry) root recursive :
  (forall r, is_dir m' r = is_dir m r) ->
  (forall r, Path.is_image_suffix r = true -> m' !! r = m !! r) ->
  candidates m' root recursive = candidates m root recursive.
Proof.
  intros Hd Hf.
  apply sorted_lists_equal;
    auto using candidates_sorted, candidates_NoDup.
  intros q. rewrite !candidates_spec, (below_ext m m') by exact Hd.
  split; intros (H1 & H2 & H3); repeat split; auto;
    unfold is_file in *; [now rewrite <- Hf | now rewrite Hf].
Qed.

End OrderFacts.

(* ===================================================================== *)
(** * Further properties of [convert_image] and its output names *)
(* ===================================================================== *)

Lemma append_cancel_r (a b c : string) : (a ++ c = b ++ c)%string -> a = b.
Proof.
  revert b. induction a as [| x a IH]; intros [| y b] H.
  - reflexivity.
  - exfalso. apply (f_equal String.length) in H.
    rewrite append_cons in H. cbn in H. rewrite !length_append in H.
    cbn in H. lia.
  - exfalso. apply (f_equal String.length) in H.
    rewrite append_cons in H. cbn in H. rewrite !length_append in H.
    cbn in H. lia.
  - rewrite !append_cons in H. injection H as -> H. f_equal. now apply IH.
Qed.

Lemma parent_output_path (p : path) (mode : string) :
  Path.parent (output_path p mode) = Path.parent p.
Proof. unfold output_path, Path.parent at 1. apply removelast_last. Qed.

(** X1. [convert_image] never writes over the file it reads: whatever
    the path, the mode and the outcome, the entry of the input is after
    the call what it was before. *)
Theorem source_never_overwritten
    (pil : Pillow) (p : path) (d : option string) (mode : string) (dith : Z)
    (w : world) :
  fs (snd (convert_image pil p d mode dith w)) !! p = fs w !! p.
Proof.
  destruct (convert_image_change pil p d mode dith w p) as [E | (Hq & _)];
    [exact E |].
  symmetry in Hq. now apply output_differs_from_input in Hq.
Qed.

(** X2. The path written for a picture lies in the directory of the
    picture, carries the suffix [.bmp], is never the picture itself, and
    differs from the path written for the same picture under another
    mode. *)
Theorem output_path_shape (p : path) (mode : string) :
  Path.parent (output_path p mode) = Path.parent p /\
  Path.suffix (output_path p mode) = ".bmp"%string /\
  output_path p mode <> p /\
  forall mode', output_path p mode' = output_path p mode -> mode' = mode.
Proof.
  split; [apply parent_output_path |]. split.
  { unfold output_path, output_name. rewrite <- !append_assoc.
    apply suffix_output. }
  split; [apply output_differs_from_input |].
  intros mode' H. unfold output_path in H.
  apply app_inv_head in H. injection H as H.
  rewrite !output_name_assoc in H. apply String.app_inj in H.
  apply (String.app_inj "_") in H. now apply append_cancel_r in H.
Qed.

(** A picture to convert has a stem. *)
Lemma split_at_stem (nm : string) (i : nat) :
  Path.split_at nm = Some i -> Str.take i nm <> ""%string.
Proof.
  unfold Path.split_at. destruct (Str.rfind "." nm) as [j |]; [| discriminate].
  destruct ((0 <? j)%nat && (S j <? String.length nm)%nat) eqn:E; [| discriminate].
  intros H. injection H as <-.
  apply andb_true_iff in E as [E1 E2]. apply Nat.ltb_lt in E1, E2.
  destruct j as [| j]; [lia |]. destruct nm as [| a nm]; [cbn in E2; lia |].
  discriminate.
Qed.

(** X3. A path that passes the filter of the walker has a name made of a
    non-empty stem followed by its suffix: a file called just [.png], a
    name without a dot and the root [.] itself are never converted. *)
Theorem picture_has_stem (p : path) :
  Path.is_image_suffix p = true ->
  Path.stem p <> ""%string /\
  (Path.stem p ++ Path.suffix p)%string = Path.name p /\
  Path.suffix p <> ""%string /\ p <> [].
Proof.
  intros H.
  assert (Path.suffix p <> ""%string) as Hs.
  { intros E. unfold Path.is_image_suffix in H. rewrite E in H. discriminate. }
  split; [| split; [apply stem_suffix | split; [exact Hs |]]].
  - unfold Path.stem. unfold Path.suffix in Hs.
    destruct (Path.split_at (Path.name p)) as [i |] eqn:E; [| congruence].
    now apply split_at_stem.
  - intros ->. now apply Hs.
Qed.

Lemma picture_has_stem_witness :
  Path.is_image_suffix ["sub"; "a.png"]%string = true /\
  Path.stem ["sub"; "a.png"]%string <> ""%string /\
  (Path.stem ["sub"; "a.png"] ++ Path.suffix ["sub"; "a.png"])%string
    = Path.name ["sub"; "a.png"]%string /\
  Path.suffix ["sub"; "a.png"]%string <> ""%string /\
  ["sub"; "a.png"]%string <> [].
Proof.
  split; [reflexivity |].
  apply (picture_has_stem ["sub"; "a.png"]%string). reflexivity.
Defined.

(** Names the filter passes over. *)
Example names_without_stem_or_suffix :
  Path.is_image_suffix [".png"%string] = false /\
  Path.is_image_suffix ["png"%string] = false /\
  Path.is_image_suffix ["photo.jpg."%string] = false /\
  Path.is_image_suffix ["photo.bmp"%string] = false /\
  Path.is_image_suffix [] = false.
Proof. repeat split. Qed.

(* ===================================================================== *)
(** * Further properties of [process_path] *)
(* ===================================================================== *)

Section WalkerFacts.

Context (pil : Pillow).

(** What a run keeps: the directories, the pictures, and every entry. *)
Lemma process_path_keeps p recursive d mode dith w :
  let w' := snd (process_path pil p recursive d mode dith w) in
  (forall r, is_dir (fs w') r = is_dir (fs w) r) /\
  (forall r, Path.is_image_suffix r = true -> fs w' !! r = fs w !! r) /\
  (forall r, is_Some (fs w !! r) -> is_Some (fs w' !! r)).
Proof.
  cbv zeta. split; [| split]; intros r.
  - destruct (process_path_change pil p recursive d mode dith w r)
      as [E | (src & _ & _ & Hd & Hf)].
    + unfold is_dir. now rewrite E.
    + rewrite Hd. unfold is_file, is_dir in *.
      now destruct (fs (snd (process_path pil p recursive d mode dith w)) !! r)
        as [[] |].
  - intros Hr.
    destruct (process_path_change pil p recursive d mode dith w r)
      as [E | (src & _ & Hq & _)]; [exact E |].
    subst r. unfold output_path in Hr. rewrite output_not_image in Hr.
    discriminate.
  - intros Hs.
    destruct (process_path_change pil p recursive d mode dith w r)
      as [E | (src & _ & _ & _ & Hf)]; [now rewrite E |].
    unfold is_file in Hf.
    now destruct (fs (snd (process_path pil p recursive d mode dith w)) !! r).
Qed.



End WalkerFacts.

(** X4. A run of [process_path] changes the file system at most in the
    output paths of the pictures it converts, and there only into a file
    where no directory stood: every other entry is after the run what it
    was before. *)
Theorem only_outputs_change
    (pil : Pillow) (p : path) (recursive : bool) (d : option string)
    (mode : string) (dith : Z) (w : world) (q : path) :
  let w' := snd (process_path pil p recursive d mode dith w) in
  fs w' !! q = fs w !! q \/
  (exists src,
      In src (sources (fs w) p recursive) /\ q = output_path src mode /\
      is_dir (fs w) q = false /\ is_file (fs w') q = true).
Proof. apply process_path_change. Qed.

(** X5. A run of [process_path] deletes nothing, leaves every directory
    a directory and no other path one, and leaves every file with a
    picture suffix, converted or not, exactly as it was. *)
Theorem nothing_deleted_no_picture_touched
    (pil : Pillow) (p : path) (recursive : bool) (d : option string)
    (mode : string) (dith : Z) (w : world) (q : path) :
  let w' := snd (process_path pil p recursive d mode dith w) in
  (is_Some (fs w !! q) -> is_Some (fs w' !! q)) /\
  is_dir (fs w') q = is_dir (fs w) q /\
  (Path.is_image_suffix q = true -> fs w' !! q = fs w !! q).
Proof.
  cbv zeta.
  destruct (process_path_keeps pil p recursive d mode dith w) as (Hd & Hf & Hs).
  auto.
Qed.

(** X6. The walk does not feed on its own outputs: after a run, on
    whatever path, a walk of any directory would convert exactly the
    pictures it would have converted before the run, in the same order. *)
Theorem walk_is_repeatable
    (pil : Pillow) (p : path) (recursive : bool) (d : option string)
    (mode : string) (dith : Z) (w : world) (root : path) (again : bool) :
  candidates (fs (snd (process_path pil p recursive d mode dith w))) root again
    = candidates (fs w) root again.
Proof.
  destruct (process_path_keeps pil p recursive d mode dith w) as (Hd & Hf & _).
  now apply candidates_ext.
Qed.

(** X7. The order of processing does not depend on the order in which
    the file system lists a directory: sorting any rearrangement of the
    listing gives the same sequence. *)
Theorem processing_order_independent_of_listing
    (m : gmap path entry) (root : path) (pat : PathOps.pattern)
    (listing : list path) :
  listing ≡ₚ PathOps.glob m root pat ->
  PathOps.sorted listing = PathOps.sorted (PathOps.glob m root pat).
Proof.
  intros H. apply (StronglySorted_unique PathOps.le);
    [apply sorted_ordered | apply sorted_ordered |].
  now rewrite !sorted_perm.
Qed.

Lemma processing_order_independent_of_listing_witness :
  let listing := rev (PathOps.glob Tiny.album [] PathOps.Star) in
  listing ≡ₚ PathOps.glob Tiny.album [] PathOps.Star /\
  listing <> PathOps.glob Tiny.album [] PathOps.Star /\
  PathOps.sorted listing = PathOps.sorted (PathOps.glob Tiny.album [] PathOps.Star).
Proof.
  assert (rev (PathOps.glob Tiny.album [] PathOps.Star)
            ≡ₚ PathOps.glob Tiny.album [] PathOps.Star) as H
    by (symmetry; apply Permutation_rev).
  split; [exact H |]. split; [vm_compute; discriminate |].
  exact (processing_order_independent_of_listing Tiny.album [] PathOps.Star _ H).
Defined.

Section DepthFacts.

Lemma strongly_sorted_filter (f : path -> bool) (l : list path) :
  StronglySorted PathOps.le l -> StronglySorted PathOps.le (List.filter f l).
Proof.
  induction 1 as [| x l Hl IH Hx]; cbn; [constructor |].
  destruct (f x); [| exact IH]. constructor; [exact IH |].
  apply List.Forall_forall. intros y Hy. apply filter_In in Hy as [Hy _].
  rewrite List.Forall_forall in Hx. auto.
Qed.

Lemma below_flat_iff (m : gmap path entry) (root q : path) :
  below m root false q <->
  below m root true q /\ List.length q = S (List.length root).
Proof.
  unfold below. split.
  - intros (rest & -> & Hne & Hlen). split.
    + exists rest. repeat split; auto. intros k Hk. lia.
    + rewrite length_app. lia.
  - intros [(rest & -> & Hne & _) Hlen]. exists rest. repeat split; auto.
    rewrite length_app in Hlen. lia.
Qed.

Lemma below_subdirectory (m : gmap path entry) (root : path) (c : string) (q : path) :
  is_dir m (root ++ [c])%list = true ->
  below m (root ++ [c])%list true q -> below m root true q.
Proof.
  intros Hd (rest & -> & Hne & H). exists (c :: rest).
  split; [now rewrite <- app_assoc |]. split; [discriminate |].
  intros [| k] Hk; [lia |]. cbn [take].
  destruct k as [| k].
  - destruct rest; exact Hd.
  - specialize (H (S k) ltac:(cbn in Hk; lia)).
    now rewrite <- app_assoc in H.
Qed.

End DepthFacts.

(** X8. Without the recursive flag the walk converts exactly those
    pictures of the recursive walk that lie directly in the root, in the
    same order. *)
Theorem flat_walk_is_top_of_recursive_walk
    (m : gmap path entry) (root : path) :
  candidates m root false =
    List.filter (fun q => Nat.eqb (List.length q) (S (List.length root)))
      (candidates m root true).
Proof.
  apply sorted_lists_equal.
  - apply candidates_sorted.
  - apply strongly_sorted_filter, candidates_sorted.
  - apply candidates_NoDup.
  - apply List.NoDup_filter, candidates_NoDup.
  - intros q. rewrite filter_In, !candidates_spec, below_flat_iff, Nat.eqb_eq.
    tauto.
Qed.

(** X9. A recursive walk of a directory covers the recursive walk of each
    of its subdirectories. *)
Theorem recursive_walk_covers_subdirectory
    (m : gmap path entry) (root : path) (c : string) :
  is_dir m (root ++ [c])%list = true ->
  incl (candidates m (root ++ [c])%list true) (candidates m root true).
Proof.
  intros Hd q. rewrite !candidates_spec. intros (Hf & Hs & Hb).
  repeat split; auto. now apply (below_subdirectory m root c).
Qed.

Lemma recursive_walk_covers_subdirectory_witness :
  is_dir Tiny.album ([] ++ ["sub"%string])%list = true /\
  candidates Tiny.album ([] ++ ["sub"%string])%list true = [["sub"; "a.png"]%string] /\
  incl (candidates Tiny.album ([] ++ ["sub"%string])%list true)
       (candidates Tiny.album [] true).
Proof.
  split; [reflexivity |]. split; [reflexivity |].
  apply (recursive_walk_covers_subdirectory Tiny.album [] "sub"). reflexivity.
Defined.




(* ===================================================================== *)
(** * Pictures that share an output, and walks with an unknown mode *)
(* ===================================================================== *)

Section CollisionFacts.

Context (pil : Pillow).

(** What a successful call leaves behind. *)
Lemma convert_image_success p d mode dith w w' :
  convert_image pil p d mode dith w = (inr true, w') ->
  exists im,
    w' = {| fs := <[output_path p mode := File true (BMP_encode pil im)]> (fs w);
            trace := trace w ++
              [Open p; Saved (output_path p mode) im;
               Stdout (success_line p (output_path p mode))] |}.
Proof.
  rewrite convert_image_run. intros H.
  destruct (attempt pil p d mode dith (fs w)) as [e | [out im]] eqn:Ea;
    [discriminate |].
  apply attempt_inr in Ea as (img & resized & indexed & _ & _ & _ & _ & Hn & _).
  apply with_name_inr in Hn. fold (output_path p mode) in Hn. subst out.
  injection H as <-. now exists im.
Qed.

Lemma same_stem_same_output (p1 p2 : path) (mode : string) :
  Path.parent p1 = Path.parent p2 -> Path.stem p1 = Path.stem p2 ->
  output_path p1 mode = output_path p2 mode.
Proof. unfold output_path, output_name. now intros -> ->. Qed.

(** With a mode that is neither [scale] nor [cut] every attempt fails. *)
Lemma attempt_unknown_mode p d mode dith m :
  mode <> "scale"%string -> mode <> "cut"%string ->
  exists e, attempt pil p d mode dith m = inl e.
Proof.
  intros Hs Hc. unfold attempt.
  destruct (load pil m p) as [e | img]; [now exists e |].
  unfold resample.
  rewrite (proj2 (String.eqb_neq mode "scale") Hs).
  rewrite (proj2 (String.eqb_neq mode "cut") Hc).
  eauto.
Qed.

Lemma world_eta (w : world) : {| fs := fs w; trace := trace w ++ [] |} = w.
Proof. destruct w. cbn. now rewrite app_nil_r. Qed.

Lemma walk_unknown_mode d mode dith (l : list path) :
  mode <> "scale"%string -> mode <> "cut"%string ->
  forall w,
    List.Forall (fun q => is_Some (fs w !! q)) l ->
    exists tr,
    for_each l (fun q => convert_if_picture pil q d mode dith) w
      = (inr tt, {| fs := fs w; trace := trace w ++ tr |}) /\
    saved_images tr = [] /\ stdout_lines tr = [].
Proof.
  intros Hs Hc. induction l as [| x l IH]; intros w Hfound.
  - exists []. cbn [for_each]. unfold ret. now rewrite world_eta.
  - apply List.Forall_cons_iff in Hfound as [Hx Hl].
    rewrite for_each_cons by exact Hx.
    destruct (is_file (fs w) x && Path.is_image_suffix x); [| now apply IH].
    rewrite convert_image_run.
    destruct (attempt_unknown_mode x d mode dith (fs w) Hs Hc) as [e ->].
    cbn [snd].
    destruct (IH {| fs := fs w;
                    trace := trace w ++ [Open x; Stderr (error_line x e)] |} Hl)
      as (tr & -> & Hsv & Hso).
    cbn [fs trace]. exists ([Open x; Stderr (error_line x e)] ++ tr)%list.
    split; [now rewrite <- app_assoc |].
    unfold saved_images, stdout_lines in *. rewrite !flat_map_app.
    now rewrite Hsv, Hso.
Qed.

End CollisionFacts.

(** X12. Two pictures of one directory with the same stem, such as
    [a.jpg] and [a.png], are written to the same output path: when both
    conversions succeed, the second replaces what the first saved, and
    the file system ends as if only the second had run. *)
Theorem same_stem_outputs_collide
    (pil : Pillow) (p1 p2 : path) (d : option string) (mode : string) (dith : Z)
    (w w1 w2 : world) :
  Path.parent p1 = Path.parent p2 -> Path.stem p1 = Path.stem p2 ->
  convert_image pil p1 d mode dith w = (inr true, w1) ->
  convert_image pil p2 d mode dith w1 = (inr true, w2) ->
  let out := output_path p1 mode in
  exists im1 im2,
    since w w1 = [Open p1; Saved out im1; Stdout (success_line p1 out)] /\
    since w1 w2 = [Open p2; Saved out im2; Stdout (success_line p2 out)] /\
    fs w1 !! out = Some (File true (BMP_encode pil im1)) /\
    fs w2 = <[out := File true (BMP_encode pil im2)]> (fs w).
Proof.
  intros Hp Hs H1 H2 out.
  apply convert_image_success in H1 as [im1 ->].
  apply convert_image_success in H2 as [im2 ->].
  rewrite <- (same_stem_same_output p1 p2 mode Hp Hs). fold out.
  exists im1, im2. cbn [fs trace].
  split; [apply since_app |]. split; [apply since_app |].
  split; [apply lookup_insert_eq | apply insert_insert_eq].
Qed.

Lemma same_stem_outputs_collide_witness :
  let run1 := convert_image Tiny.pillow ["a.jpg"%string] None "scale" 3 Twins.start in
  let run2 := convert_image Tiny.pillow ["a.png"%string] None "scale" 3 (snd run1) in
  Path.parent ["a.jpg"%string] = Path.parent ["a.png"%string] /\
  Path.stem ["a.jpg"%string] = Path.stem ["a.png"%string] /\
  run1 = (inr true, snd run1) /\ run2 = (inr true, snd run2) /\
  exists im1 im2,
    since Twins.start (snd run1) =
      [Open ["a.jpg"%string]; Saved ["a_scale_output.bmp"%string] im1;
       Stdout "Successfully converted a.jpg to a_scale_output.bmp"] /\
    since (snd run1) (snd run2) =
      [Open ["a.png"%string]; Saved ["a_scale_output.bmp"%string] im2;
       Stdout "Successfully converted a.png to a_scale_output.bmp"] /\
    fs (snd run1) !! ["a_scale_output.bmp"%string]
      = Some (File true (Tiny.encode im1)) /\
    fs (snd run2) =
      <[ ["a_scale_output.bmp"%string] := File true (Tiny.encode im2)]> Twins.album.
Proof.
  split; [reflexivity |]. split; [reflexivity |].
  split; [reflexivity |]. split; [reflexivity |].
  apply (same_stem_outputs_collide Tiny.pillow ["a.jpg"%string] ["a.png"%string]
           None "scale" 3 Twins.start); reflexivity.
Defined.

(** X13. With a mode that is neither [scale] nor [cut], a run of
    [process_path] writes nothing, whatever it is pointed at: the file
    system is as before, no image is saved and no success line printed. *)
Theorem unknown_mode_writes_nothing
    (pil : Pillow) (p : path) (recursive : bool) (d : option string)
    (mode : string) (dith : Z) (w : world) :
  mode <> "scale"%string -> mode <> "cut"%string ->
  let w' := snd (process_path pil p recursive d mode dith w) in
  fs w' = fs w /\
  saved_images (since w w') = [] /\
  stdout_lines (since w w') = [].
Proof.
  intros Hs Hc. cbv zeta. destruct (is_file (fs w) p) eqn:Hf.
  - rewrite process_path_file by exact Hf.
    destruct (Path.is_image_suffix p); cbn [snd].
    + rewrite convert_image_run.
      destruct (attempt_unknown_mode pil p d mode dith (fs w) Hs Hc) as [e ->].
      cbn [snd fs]. rewrite since_app. now repeat split.
    + rewrite since_refl. now repeat split.
  - destruct (is_dir (fs w) p) eqn:Hd.
    + rewrite process_path_dir_eq by exact Hd.
      destruct (walk_unknown_mode pil d mode dith
                  (PathOps.sorted (PathOps.glob (fs w) p (pattern_of recursive)))
                  Hs Hc w (glob_found _ _ _)) as (tr & -> & Hsv & Hso).
      cbn [snd fs]. rewrite since_app. now repeat split.
    + destruct (stat_error (fs w) p) as [e |] eqn:Hst.
      * rewrite (process_path_raises pil p recursive d mode dith w e Hst).
        cbn [snd]. rewrite since_refl. now repeat split.
      * rewrite process_path_invalid by assumption. cbn [snd]. unfold emit.
        rewrite since_app. now repeat split.
Qed.

Lemma unknown_mode_writes_nothing_witness :
  let w' := snd (process_path Tiny.pillow [] true None "zoom" 3 Tiny.start) in
  "zoom"%string <> "scale"%string /\ "zoom"%string <> "cut"%string /\
  fs w' = Tiny.album /\
  saved_images (since Tiny.start w') = [] /\
  stdout_lines (since Tiny.start w') = [].
Proof.
  split; [discriminate |]. split; [discriminate |].
  apply (unknown_mode_writes_nothing Tiny.pillow [] true None "zoom" 3 Tiny.start);
    discriminate.
Defined.

(** What that walk prints instead: one error line for each picture. *)
Example unknown_mode_walk_lines :
  stderr_lines
    (trace (snd (process_path Tiny.pillow [] true None "zoom" 3 Tiny.start))) =
    ["Error processing b.PNG: Unknown mode: zoom";
     "Error processing broken.jpeg: cannot identify image file";
     "Error processing photo.jpg: Unknown mode: zoom";
     "Error processing sub/a.png: Unknown mode: zoom"]%string.
Proof. reflexivity. Qed.
